(** * pvAccessCPP: provider registry and shared-state channels

    A shallow embedding of two translation units of pvAccessCPP:

    - the channel provider registry ([getProvider], [createProvider],
      [registerChannelProviderFactory], [unregisterChannelProviderFactory]);
    - [src/server/sharedstate_channel.cpp]: the constructor and destructor of
      [SharedChannel], its [getField] / [createChannelPut] /
      [createChannelRPC] / [createMonitor] methods, the [Operation] handle
      and [Operation::Impl::Cleanup].

    Smart pointers are options: an empty [shared_ptr], or a [weak_ptr] whose
    [lock()] fails, is [None]. *)

From stdpp Require Import gmap strings list sorting.

Set Default Proof Using "Type".

(** [std::tr1::shared_ptr<T>]: either empty or pointing to a [T]. *)
Abbreviation shared_pointer T := (option T) (only parsing).

(** The boolean test of a pointer: [if(p)], [!!p]. *)
Definition nonnull {T : Type} (p : shared_pointer T) : bool :=
  match p with Some _ => true | None => false end.

(** ** The provider registry *)

Module Registry.

Section WithProvider.

(** The provider objects themselves are opaque to the registry. *)
Context {ChannelProvider : Type}.

(** [ChannelProviderFactory]: the three virtual methods the registry calls.
    The registry never looks inside the providers that a factory hands
    out, so each method is represented by what it returns. *)
Record ChannelProviderFactory : Type := {
  getFactoryName : string;
  sharedInstance : shared_pointer ChannelProvider;
  newInstance : shared_pointer ChannelProvider
}.

(** [static ChannelProviderFactoryMap channelProviders]: a [std::map] from
    names to factories, threaded explicitly through every operation. *)
Abbreviation ChannelProviderFactoryMap := (gmap string ChannelProviderFactory).

(** [(_providerName == "pvAccess") ? "pva" : _providerName] *)
Definition redirect (_providerName : string) : string :=
  if String.eqb _providerName "pvAccess" then "pva" else _providerName.

Definition getProvider (channelProviders : ChannelProviderFactoryMap)
    (_providerName : string) : shared_pointer ChannelProvider :=
  let providerName := redirect _providerName in
  match channelProviders !! providerName with
  | Some factory => sharedInstance factory
  | None => None
  end.

Definition createProvider (channelProviders : ChannelProviderFactoryMap)
    (_providerName : string) : shared_pointer ChannelProvider :=
  let providerName := redirect _providerName in
  match channelProviders !! providerName with
  | Some factory => newInstance factory
  | None => None
  end.

(** [channelProviders[factory->getFactoryName()] = factory] *)
Definition registerChannelProviderFactory
    (channelProviderFactory : ChannelProviderFactory)
    (channelProviders : ChannelProviderFactoryMap) : ChannelProviderFactoryMap :=
  <[getFactoryName channelProviderFactory := channelProviderFactory]> channelProviders.

(** [channelProviders.erase(factory->getFactoryName())] *)
Definition unregisterChannelProviderFactory
    (channelProviderFactory : ChannelProviderFactory)
    (channelProviders : ChannelProviderFactoryMap) : ChannelProviderFactoryMap :=
  delete (getFactoryName channelProviderFactory) channelProviders.

End WithProvider.

Arguments ChannelProviderFactory : clear implicits.

End Registry.


(** ** The provider registry: listing names, and the registry object *)

Module RegistryNames.

Import Registry.

(** The order of [std::string], under which [std::map] keeps its keys:
    lexicographic on the characters. *)
Definition string_le (a b : string) : Prop := String.leb a b = true.

Global Instance string_le_dec (a b : string) : Decision (string_le a b) :=
  decide (String.leb a b = true).

Global Instance string_le_total : Total string_le.
Proof. intros a b. apply String.leb_total. Qed.

(** [ChannelProviderRegistryImpl::getProviderNames]: the keys of the map, in
    the order in which the iterator of a [std::map] visits them. *)
Definition getProviderNames {ChannelProvider : Type}
    (channelProviders : gmap string (ChannelProviderFactory ChannelProvider))
    : list string :=
  merge_sort string_le (map_to_list channelProviders).*1.

(** [getChannelProviderRegistry]: the file-static pointer
    [ChannelProviderRegistry] is filled on the first call, with the object
    that [new ChannelProviderRegistryImpl()] allocates (at [fresh]), and
    returned.  The result is the returned pointer and the static pointer
    after the call. *)
Definition getChannelProviderRegistry (fresh : nat)
    (ChannelProviderRegistry : shared_pointer nat)
    : shared_pointer nat * shared_pointer nat :=
  let ChannelProviderRegistry :=
    match ChannelProviderRegistry with
    | None => Some fresh
    | Some r => Some r
    end in
  (ChannelProviderRegistry, ChannelProviderRegistry).

(** A series of calls; each comes with the address its allocation would
    get.  The results of the calls, and the static pointer at the end. *)
Fixpoint getChannelProviderRegistry_calls (allocs : list nat)
    (ChannelProviderRegistry : shared_pointer nat)
    : list (shared_pointer nat) * shared_pointer nat :=
  match allocs with
  | [] => ([], ChannelProviderRegistry)
  | fresh :: allocs' =>
      let '(r, g) := getChannelProviderRegistry fresh ChannelProviderRegistry in
      let '(rs, g') := getChannelProviderRegistry_calls allocs' g in
      (r :: rs, g')
  end.

End RegistryNames.
(** ** Values borrowed from pvData *)

(** [pvd::Status]: a severity and a message.  [Status()] is the default
    (success) status, [Status::error(m)] an error carrying [m]. *)
Inductive StatusType : Type :=
  | STATUSTYPE_OK
  | STATUSTYPE_WARNING
  | STATUSTYPE_ERROR
  | STATUSTYPE_FATAL.

Record Status : Type := {
  getType : StatusType;
  getMessage : string
}.

Definition Status_default : Status :=
  {| getType := STATUSTYPE_OK; getMessage := "" |}.

Definition Status_error (m : string) : Status :=
  {| getType := STATUSTYPE_ERROR; getMessage := m |}.

Definition isSuccess (s : Status) : bool :=
  match getType s with
  | STATUSTYPE_OK | STATUSTYPE_WARNING => true
  | _ => false
  end.

(** [pvd::MessageType] *)
Inductive MessageType : Type :=
  | infoMessage
  | warningMessage
  | errorMessage
  | fatalErrorMessage.

(** Objects reached through pointers (channels, operations, monitors,
    requesters, handlers) are identified by their address. *)
Definition addr : Type := nat.

(** ** Shared records and their channels ([sharedstate_channel.cpp]) *)

Module SharedState.

Section WithData.

(** Type descriptors, structured values and field masks come from pvData;
    this code only stores and forwards them. *)
Context {Structure PVStructure BitSet : Type}.

(** The members of [SharedPV] that [sharedstate_channel.cpp] touches, all
    of them guarded by [owner->mutex].  The attachment lists hold raw
    pointers.  ([debugLvl] only selects diagnostic output and
    [num_instances] only feeds the reference tracker; neither is
    represented.) *)
Record SharedPV : Type := {
  type : shared_pointer Structure;
  current : shared_pointer PVStructure;
  valid : BitSet;
  handler : shared_pointer addr;
  channels : list addr;
  puts : list addr;
  rpcs : list addr;
  monitors : list addr;
  getfields : list addr
}.

Definition set_channels (f : list addr → list addr) (pv : SharedPV) : SharedPV :=
  {| type := type pv; current := current pv; valid := valid pv;
     handler := handler pv; channels := f (channels pv); puts := puts pv;
     rpcs := rpcs pv; monitors := monitors pv; getfields := getfields pv |}.

Definition set_puts (f : list addr → list addr) (pv : SharedPV) : SharedPV :=
  {| type := type pv; current := current pv; valid := valid pv;
     handler := handler pv; channels := channels pv; puts := f (puts pv);
     rpcs := rpcs pv; monitors := monitors pv; getfields := getfields pv |}.

Definition set_rpcs (f : list addr → list addr) (pv : SharedPV) : SharedPV :=
  {| type := type pv; current := current pv; valid := valid pv;
     handler := handler pv; channels := channels pv; puts := puts pv;
     rpcs := f (rpcs pv); monitors := monitors pv; getfields := getfields pv |}.

Definition set_monitors (f : list addr → list addr) (pv : SharedPV) : SharedPV :=
  {| type := type pv; current := current pv; valid := valid pv;
     handler := handler pv; channels := channels pv; puts := puts pv;
     rpcs := rpcs pv; monitors := f (monitors pv); getfields := getfields pv |}.

Definition set_getfields (f : list addr → list addr) (pv : SharedPV) : SharedPV :=
  {| type := type pv; current := current pv; valid := valid pv;
     handler := handler pv; channels := channels pv; puts := puts pv;
     rpcs := rpcs pv; monitors := monitors pv; getfields := f (getfields pv) |}.

(** [std::list::push_back] and [std::list::remove] (which erases every
    element equal to its argument). *)
Definition push_back (x : addr) (l : list addr) : list addr := l ++ [x].
Definition remove (x : addr) (l : list addr) : list addr := filter (λ y, y ≠ x) l.
Definition empty (l : list addr) : bool := bool_decide (l = []).

(** Calls that leave this translation unit. *)
Inductive Event : Type :=
| onFirstConnect (handler : addr)
| onLastDisconnect (handler : addr)
| getDone (requester : addr) (sts : Status) (desc : Structure)
| channelPutConnect (requester : addr) (sts : Status) (op : addr) (ty : Structure)
| channelRPCConnect (requester : addr) (sts : Status) (op : addr)
| MonitorFIFO_open (mon : addr) (ty : shared_pointer Structure)
| MonitorFIFO_post (mon : addr) (value : PVStructure) (changed : BitSet)
| MonitorFIFO_notify (mon : addr).

(** [open] and [post] fill the queue of a monitor; every other event runs
    requester or handler code. *)
Definition is_callback (e : Event) : bool :=
  match e with
  | MonitorFIFO_open _ _ | MonitorFIFO_post _ _ _ => false
  | _ => true
  end.

(** What an observer of one record sees: the lock being taken and
    released ([Guard G(owner->mutex)] entering and leaving scope) and the
    outgoing calls. *)
Inductive Obs : Type :=
| Acquire
| Release
| Ev (e : Event).

Definition events (t : list Obs) : list Event :=
  omap (λ o, match o with Ev e => Some e | _ => None end) t.

Definition callbacks (t : list Obs) : list Event :=
  filter (λ e, is_callback e = true) (events t).

(** The notifications about one attachment. *)
Definition is_getDone (requester : addr) (e : Event) : Prop :=
  match e with getDone r _ _ => r = requester | _ => False end.
Definition is_channelPutConnect (op : addr) (e : Event) : Prop :=
  match e with channelPutConnect _ _ o _ => o = op | _ => False end.
Definition is_channelRPCConnect (op : addr) (e : Event) : Prop :=
  match e with channelRPCConnect _ _ o => o = op | _ => False end.

Global Instance is_getDone_dec r e : Decision (is_getDone r e).
Proof. destruct e; cbn; apply _. Defined.
Global Instance is_channelPutConnect_dec r e : Decision (is_channelPutConnect r e).
Proof. destruct e; cbn; apply _. Defined.
Global Instance is_channelRPCConnect_dec r e : Decision (is_channelRPCConnect r e).
Proof. destruct e; cbn; apply _. Defined.

(** *** Method bodies

    A method body is a sequence of steps on the shared record: taking and
    releasing its mutex, reading or writing its members, and calling out.
    Every read and every write is a step of its own, so that threads can
    be interleaved between any two of them. *)
Inductive retval : Type :=
| void
| object (a : addr).

Inductive prog : Type :=
| Ret (r : retval)
| Fault
| Lock (k : prog)
| Unlock (k : prog)
| Read {X : Type} (f : SharedPV → X) (k : X → prog)
| Write (f : SharedPV → SharedPV) (k : prog)
| Emit (e : Event) (k : prog).

(** [SharedChannel::SharedChannel], from the handler declaration on. *)
Definition SharedChannel_ctor (this : addr) : prog :=
  Lock (
    Read (λ owner, empty (channels owner)) (λ was_empty,
      let push (handler : shared_pointer addr) :=
        Write (set_channels (push_back this)) (
          Unlock (
            match handler with
            | Some h => Emit (onFirstConnect h) (Ret void)
            | None => Ret void
            end)) in
      if was_empty then Read handler push else push None)).

(** [SharedChannel::~SharedChannel].  The inner [Guard] takes the
    (recursive) mutex a second time around the read of the handler. *)
Definition SharedChannel_dtor (this : addr) : prog :=
  Lock (
    Write (set_channels (remove this)) (
      Read (λ owner, empty (channels owner)) (λ now_empty,
        let leave (handler : shared_pointer addr) :=
          Unlock (
            match handler with
            | Some h => Emit (onLastDisconnect h) (Ret void)
            | None => Ret void
            end) in
        if now_empty
        then Lock (Read handler (λ h, Unlock (leave h)))
        else leave None))).

(** [SharedChannel::getField]; the body does not look at [subField]. *)
Definition getField (requester : addr) (subField : string) : prog :=
  Lock (
    Read (λ owner, nonnull (type owner)) (λ known,
      let leave (desc : shared_pointer Structure) :=
        Unlock (
          match desc with
          | Some d => Emit (getDone requester Status_default d) (Ret void)
          | None => Ret void
          end) in
      if known
      then Read type leave
      else Write (set_getfields (push_back requester)) (leave None))).

(** [SharedChannel::createChannelPut]; [ret] is the object allocated by
    [new SharedPut(shared_from_this(), requester, pvRequest)]. *)
Definition createChannelPut (requester : addr)
    (pvRequest : shared_pointer PVStructure) (ret : addr) : prog :=
  Lock (
    Write (set_puts (push_back ret)) (
      Read type (λ ty,
        Unlock (
          match ty with
          | Some t =>
              Emit (channelPutConnect requester Status_default ret t)
                (Ret (object ret))
          | None => Ret (object ret)
          end)))).

(** [SharedChannel::createChannelRPC]; [ret] is the object allocated by
    [new SharedRPC(shared_from_this(), requester, pvRequest)]. *)
Definition createChannelRPC (requester : addr)
    (pvRequest : shared_pointer PVStructure) (ret : addr) : prog :=
  Lock (
    Write (set_rpcs (push_back ret)) (
      Read (λ owner, nonnull (type owner)) (λ opened,
        Unlock (
          if opened
          then Emit (channelRPCConnect requester Status_default ret)
                 (Ret (object ret))
          else Ret (object ret))))).

(** [SharedChannel::createMonitor]; [ret] is the object allocated by
    [new SharedMonitorFIFO(shared_from_this(), requester, pvRequest)].
    [*owner->current] dereferences the pointer: an empty one is a fault. *)
Definition createMonitor (requester : addr)
    (pvRequest : shared_pointer PVStructure) (ret : addr) : prog :=
  Lock (
    Write (set_monitors (push_back ret)) (
      Read (λ owner, nonnull (type owner)) (λ notify,
        let leave :=
          Unlock (
            if notify
            then Emit (MonitorFIFO_notify ret) (Ret (object ret))
            else Ret (object ret)) in
        if notify
        then
          Read type (λ ty,
            Emit (MonitorFIFO_open ret ty) (
              Read current (λ cur,
                match cur with
                | Some value =>
                    Read valid (λ vld,
                      Emit (MonitorFIFO_post ret value vld) leave)
                | None => Fault
                end)))
        else leave))).

(** [SharedMonitorFIFO::~SharedMonitorFIFO] *)
Definition SharedMonitorFIFO_dtor (this : addr) : prog :=
  Lock (Write (set_monitors (remove this)) (Unlock (Ret void))).

(** *** One thread

    Running a body alone, from start to end. *)
Fixpoint run (p : prog) (pv : SharedPV) : option retval * SharedPV * list Obs :=
  match p with
  | Ret r => (Some r, pv, [])
  | Fault => (None, pv, [])
  | Lock k => let '(r, pv', t) := run k pv in (r, pv', Acquire :: t)
  | Unlock k => let '(r, pv', t) := run k pv in (r, pv', Release :: t)
  | Read f k => run (k (f pv)) pv
  | Write f k => run k (f pv)
  | Emit e k => let '(r, pv', t) := run k pv in (r, pv', Ev e :: t)
  end.

(** Several calls, one after the other.  A call that faults ends the
    program: the calls after it are never made. *)
Fixpoint run_all (ps : list prog) (pv : SharedPV) : SharedPV * list Obs :=
  match ps with
  | [] => (pv, [])
  | p :: ps' =>
      match run p pv with
      | (Some _, pv1, t1) =>
          let '(pv2, t2) := run_all ps' pv1 in
          (pv2, t1 ++ t2)
      | (None, pv1, t1) => (pv1, t1)
      end
  end.

(** Whether every call of the series returns. *)
Fixpoint all_return (ps : list prog) (pv : SharedPV) : bool :=
  match ps with
  | [] => true
  | p :: ps' =>
      match run p pv with
      | (Some _, pv1, _) => all_return ps' pv1
      | (None, _, _) => false
      end
  end.

(** *** Several threads

    A pool of threads shares the record and its mutex.  [epicsMutex] is
    recursive: it records its owner and how many times the owner took
    it.  A thread that asks for a mutex held by another cannot step. *)
Record config : Type := {
  shared : SharedPV;
  mutex : option (nat * nat);
  trace : list Obs;
  threads : list prog
}.

Definition step (i : nat) (c : config) : option config :=
  match threads c !! i with
  | None => None
  | Some p =>
      let continue pv m t k :=
        Some {| shared := pv; mutex := m; trace := t;
                threads := <[i:=k]> (threads c) |} in
      match p with
      | Ret _ | Fault => None
      | Lock k =>
          match mutex c with
          | None => continue (shared c) (Some (i, 1)) (trace c ++ [Acquire]) k
          | Some (j, d) =>
              if decide (j = i)
              then continue (shared c) (Some (i, S d)) (trace c ++ [Acquire]) k
              else None
          end
      | Unlock k =>
          match mutex c with
          | Some (j, S d) =>
              if decide (j = i)
              then continue (shared c)
                     (match d with 0 => None | S _ => Some (i, d) end)
                     (trace c ++ [Release]) k
              else None
          | _ => None
          end
      | Read f k => continue (shared c) (mutex c) (trace c) (k (f (shared c)))
      | Write f k => continue (f (shared c)) (mutex c) (trace c) k
      | Emit e k => continue (shared c) (mutex c) (trace c ++ [Ev e]) k
      end
  end.

(** A schedule names the thread that takes each step. *)
Fixpoint exec (sched : list nat) (c : config) : option config :=
  match sched with
  | [] => Some c
  | i :: sched' =>
      match step i c with
      | Some c' => exec sched' c'
      | None => None
      end
  end.

(** The pool before any step, and a pool all of whose threads have
    returned. *)
Definition start (pv : SharedPV) (ps : list prog) : config :=
  {| shared := pv; mutex := None; trace := []; threads := ps |}.

Definition returned (p : prog) : bool :=
  match p with Ret _ => true | _ => false end.

Definition all_returned (c : config) : bool := forallb returned (threads c).

(** The locking discipline of a body running with the mutex taken [d]
    times: members are touched, and queues filled, only with the mutex
    held; requester and handler code runs only with it released; the
    body returns with it released. *)
Fixpoint disciplined (d : nat) (p : prog) : Prop :=
  match p with
  | Ret _ => d = 0
  | Fault => True
  | Lock k => disciplined (S d) k
  | Unlock k => match d with 0 => False | S d' => disciplined d' k end
  | Read f k => 0 < d ∧ ∀ x, disciplined d (k x)
  | Write f k => 0 < d ∧ disciplined d k
  | Emit e k => (if is_callback e then d = 0 else 0 < d) ∧ disciplined d k
  end.

(** *** Invariants of a pool of threads *)

Implicit Types (c : config).
Implicit Types (this hd : addr).

(** How many times thread [i] holds the mutex. *)
Definition depth_of (i : nat) (m : option (nat * nat)) : nat :=
  match m with
  | Some (j, d) => if decide (j = i) then d else 0
  | None => 0
  end.

(** Every thread is at a point of its body that fits the number of times
    it holds the mutex. *)
Definition exclusion c : Prop :=
  (∀ j d, mutex c = Some (j, d) → 0 < d ∧ j < length (threads c))
  ∧ ∀ i p, threads c !! i = Some p → disciplined (depth_of i (mutex c)) p.

(** A thread about to touch a member, or to release the mutex, holds the
    mutex. *)
Definition in_critical_section p : bool :=
  match p with
  | Read _ _ | Write _ _ | Unlock _ => true
  | _ => false
  end.

(** The points of the constructor's body, with the handler captured so
    far. *)
Inductive phase : Type :=
| Idle
| Locked
| Capturing
| Pushing (h : shared_pointer addr)
| Unlocking (h : shared_pointer addr)
| Notifying (h : addr)
| Finished.

(** The rest of the constructor's body from each of these points. *)
Definition ctor_notify (h : shared_pointer addr) : prog :=
  match h with
  | Some h => Emit (onFirstConnect h) (Ret void)
  | None => Ret void
  end.

Definition ctor_push this (h : shared_pointer addr) : prog :=
  Write (set_channels (push_back this)) (Unlock (ctor_notify h)).

Definition ctor_check this : prog :=
  Read (λ owner, empty (channels owner))
    (λ was_empty : bool,
       if was_empty then Read handler (ctor_push this) else ctor_push this None).

Definition ctor_at this (ph : phase) : prog :=
  match ph with
  | Idle => Lock (ctor_check this)
  | Locked => ctor_check this
  | Capturing => Read handler (ctor_push this)
  | Pushing h => ctor_push this h
  | Unlocking h => Unlock (ctor_notify h)
  | Notifying h => Emit (onFirstConnect h) (Ret void)
  | Finished => Ret void
  end.

(** A thread is described by the channel it constructs and the point it
    has reached. *)
Definition code (x : addr * phase) : prog := ctor_at x.1 x.2.

(** An upper bound on the steps left from a point. *)
Definition rank (ph : phase) : nat :=
  match ph with
  | Idle => 6
  | Locked => 5
  | Capturing => 4
  | Pushing _ => 3
  | Unlocking _ => 2
  | Notifying _ => 1
  | Finished => 0
  end.

(** The points between taking and releasing the mutex. *)
Definition critical (ph : phase) : bool :=
  match ph with
  | Locked | Capturing | Pushing _ | Unlocking _ => true
  | _ => false
  end.

(** The points a thread can be at while nobody has captured the handler;
    the points at which a thread has captured it and not yet called it;
    the points of a thread that will not call it. *)
Definition before_capture (ph : phase) : Prop :=
  match ph with
  | Idle | Locked | Capturing => True
  | _ => False
  end.

Definition holds_token hd (ph : phase) : Prop :=
  match ph with
  | Pushing (Some h) | Unlocking (Some h) | Notifying h => h = hd
  | _ => False
  end.

Definition no_token (ph : phase) : Prop :=
  match ph with
  | Idle | Locked | Pushing None | Unlocking None | Finished => True
  | _ => False
  end.

Definition is_pushing (ph : phase) : Prop :=
  match ph with
  | Pushing _ => True
  | _ => False
  end.

(** The three stages of a record that starts without channels: nobody
    has captured the handler; one thread has, and has not yet called it;
    it has been called.  [cbs] are the calls made so far and [chs] the
    channel list. *)
Definition stage hd (phs : list (addr * phase))
    (cbs : list Event) (chs : list addr) : Prop :=
  (cbs = [] ∧ chs = [] ∧ ∀ j y, phs !! j = Some y → before_capture y.2)
  ∨ (cbs = []
     ∧ ∃ i x, phs !! i = Some x ∧ holds_token hd x.2
       ∧ (chs = [] ↔ is_pushing x.2)
       ∧ ∀ j y, j ≠ i → phs !! j = Some y → no_token y.2)
  ∨ (cbs = [onFirstConnect hd] ∧ chs ≠ []
     ∧ ∀ j y, phs !! j = Some y → no_token y.2).

(** The invariant of a pool of constructors: the handler stays attached,
    every thread is at a point of the constructor's body, the mutex
    excludes, and the pool is in one of the three stages. *)
Definition opening hd (phs : list (addr * phase)) c : Prop :=
  handler (shared c) = Some hd
  ∧ threads c = code <$> phs
  ∧ exclusion c
  ∧ stage hd phs (callbacks (trace c)) (channels (shared c)).

(** No other thread is between taking and releasing the mutex. *)
Definition alone (phs : list (addr * phase)) (i : nat) : Prop :=
  ∀ j y, j ≠ i → phs !! j = Some y → critical y.2 = false.

(** The steps the pool still has to take. *)
Fixpoint work (phs : list (addr * phase)) : nat :=
  match phs with
  | [] => 0
  | x :: phs' => rank x.2 + work phs'
  end.

(** The points at which the constructor has appended its channel, and the
    channels the threads of a pool have appended so far. *)
Definition appended (ph : phase) : bool :=
  match ph with
  | Unlocking _ | Notifying _ | Finished => true
  | _ => false
  end.

Fixpoint joined (phs : list (addr * phase)) : list addr :=
  match phs with
  | [] => []
  | x :: phs' => if appended x.2 then x.1 :: joined phs' else joined phs'
  end.

(** The list of a record that had the channels [init] when the
    constructors of [cs] were started: those channels and the ones
    appended since, in some order. *)
Definition joining (init cs : list addr) (phs : list (addr * phase)) c : Prop :=
  threads c = code <$> phs
  ∧ phs.*1 = cs
  ∧ channels (shared c) ≡ₚ init ++ joined phs.

(** The destructor once it has removed its channel from the list, about
    to test the list for emptiness. *)
Definition dtor_check this : prog :=
  Read (λ owner, empty (channels owner)) (λ now_empty,
    let leave (handler : shared_pointer addr) :=
      Unlock (
        match handler with
        | Some h => Emit (onLastDisconnect h) (Ret void)
        | None => Ret void
        end) in
    if now_empty
    then Lock (Read handler (λ h, Unlock (leave h)))
    else leave None).



(** *** Collaborators that live in other translation units *)

(** Modelled from the spec: the queue behind [SharedMonitorFIFO]
    ([pva::MonitorFIFO]), whose code is not part of these sources.  The
    queue has an opened flag, true once the type descriptor is known;
    [open(type)] makes it ready to accept posts; [post(value, valid)]
    enqueues an update, in order; the notification only tells the
    subscriber that data is ready and leaves the queue as it is. *)
Record MonitorFIFO : Type := {
  opened : shared_pointer Structure;
  queue : list (PVStructure * BitSet)
}.

Definition MonitorFIFO_new : MonitorFIFO := {| opened := None; queue := [] |}.

Definition MonitorFIFO_apply (mon : addr) (q : MonitorFIFO) (e : Event) : MonitorFIFO :=
  match e with
  | MonitorFIFO_open m ty =>
      if decide (m = mon) then {| opened := ty; queue := queue q |} else q
  | MonitorFIFO_post m value changed =>
      if decide (m = mon)
      then match opened q with
           | Some _ => {| opened := opened q; queue := queue q ++ [(value, changed)] |}
           | None => q
           end
      else q
  | _ => q
  end.

Definition MonitorFIFO_after (mon : addr) (es : list Event) : MonitorFIFO :=
  foldl (MonitorFIFO_apply mon) MonitorFIFO_new es.

(** An update posted to the queue of [mon]. *)
Definition posted (mon : addr) (u : PVStructure * BitSet) : Event :=
  MonitorFIFO_post mon u.1 u.2.

(** Several calls in a row. *)
Definition emit_all (es : list Event) (k : prog) : prog := foldr Emit k es.




(** Modelled from the spec: a thread that posts an update to the record
    ([SharedPV::post]), whose code is not part of these sources.  The
    monitor set is guarded by the record's lock; [post(value, valid)]
    enqueues the update in a queue; the notification that data is ready
    is a call into subscriber code and is made outside the lock.  Only
    what a post does to the monitor queues is represented. *)
Definition SharedPV_post (u : PVStructure * BitSet) : prog :=
  Lock (
    Read monitors (λ p_monitor,
      emit_all ((λ m, posted m u) <$> p_monitor) (
        Unlock (emit_all (MonitorFIFO_notify <$> p_monitor) (Ret void))))).

(** *** Invariants of a monitor created while updates are posted *)

(** The points of [createMonitor] on a record whose type descriptor is
    known, and the rest of its body from each of them. *)
Inductive mphase : Type :=
| MIdle
| MRegistering
| MTesting
| MReadType
| MOpening
| MReadValue
| MReadValid
| MPosting
| MLeaving
| MNotifying
| MFinished.

Definition monitor_leave (ret : addr) (notify : bool) : prog :=
  Unlock (
    if notify
    then Emit (MonitorFIFO_notify ret) (Ret (object ret))
    else Ret (object ret)).

Definition monitor_valid (ret : addr) (notify : bool) (value : PVStructure) : prog :=
  Read valid (λ vld, Emit (MonitorFIFO_post ret value vld) (monitor_leave ret notify)).

Definition monitor_value (ret : addr) (notify : bool) : prog :=
  Read current (λ cur,
    match cur with
    | Some value => monitor_valid ret notify value
    | None => Fault
    end).

Definition monitor_seed (ret : addr) (notify : bool) : prog :=
  Read type (λ ty, Emit (MonitorFIFO_open ret ty) (monitor_value ret notify)).

Definition monitor_test (ret : addr) : prog :=
  Read (λ owner, nonnull (type owner)) (λ notify,
    if notify then monitor_seed ret notify else monitor_leave ret notify).

Definition monitor_at (ret : addr) (ty : Structure) (value : PVStructure)
    (vld : BitSet) (ph : mphase) : prog :=
  match ph with
  | MIdle => Lock (Write (set_monitors (push_back ret)) (monitor_test ret))
  | MRegistering => Write (set_monitors (push_back ret)) (monitor_test ret)
  | MTesting => monitor_test ret
  | MReadType => monitor_seed ret true
  | MOpening => Emit (MonitorFIFO_open ret (Some ty)) (monitor_value ret true)
  | MReadValue => monitor_value ret true
  | MReadValid => monitor_valid ret true value
  | MPosting => Emit (MonitorFIFO_post ret value vld) (monitor_leave ret true)
  | MLeaving => monitor_leave ret true
  | MNotifying => Emit (MonitorFIFO_notify ret) (Ret (object ret))
  | MFinished => Ret (object ret)
  end.

(** How many times the creating thread holds the mutex at each point,
    whether it has appended the queue to the monitor list, and an upper
    bound on the steps it has left. *)
Definition mdepth (ph : mphase) : nat :=
  match ph with
  | MIdle | MNotifying | MFinished => 0
  | _ => 1
  end.

Definition registered (ph : mphase) : bool :=
  match ph with
  | MIdle | MRegistering => false
  | _ => true
  end.

Definition mrank (ph : mphase) : nat :=
  match ph with
  | MIdle => 10
  | MRegistering => 9
  | MTesting => 8
  | MReadType => 7
  | MOpening => 6
  | MReadValue => 5
  | MReadValid => 4
  | MPosting => 3
  | MLeaving => 2
  | MNotifying => 1
  | MFinished => 0
  end.

(** What the queue of the new monitor is at each point: untouched,
    opened, seeded with the snapshot and nothing else, seeded with the
    snapshot first. *)
Definition seeded (ty : Structure) (value : PVStructure) (vld : BitSet)
    (ph : mphase) (q : MonitorFIFO) : Prop :=
  match ph with
  | MIdle | MRegistering | MTesting | MReadType | MOpening => q = MonitorFIFO_new
  | MReadValue | MReadValid | MPosting => q = {| opened := Some ty; queue := [] |}
  | MLeaving => q = {| opened := Some ty; queue := [(value, vld)] |}
  | MNotifying | MFinished =>
      opened q = Some ty ∧ ∃ later, queue q = (value, vld) :: later
  end.

(** The points of a posting thread: [rest] are the queues it has still to
    post to or to notify, [all] the ones it found registered. *)
Inductive pphase : Type :=
| PIdle
| PReading
| PPosting (rest all : list addr)
| PNotifying (rest : list addr).

Definition poster_at (u : PVStructure * BitSet) (ph : pphase) : prog :=
  match ph with
  | PIdle => SharedPV_post u
  | PReading =>
      Read monitors (λ p_monitor,
        emit_all ((λ m, posted m u) <$> p_monitor) (
          Unlock (emit_all (MonitorFIFO_notify <$> p_monitor) (Ret void))))
  | PPosting rest all =>
      emit_all ((λ m, posted m u) <$> rest) (
        Unlock (emit_all (MonitorFIFO_notify <$> all) (Ret void)))
  | PNotifying rest => emit_all (MonitorFIFO_notify <$> rest) (Ret void)
  end.

Definition poster_code (x : (PVStructure * BitSet) * pphase) : prog :=
  poster_at x.1 x.2.

(** The queues a posting thread is about to post to, and an upper bound
    on the steps it has left when the monitor list never holds more than
    [bound] queues. *)
Definition posting_to (ph : pphase) : list addr :=
  match ph with
  | PPosting rest _ => rest
  | _ => []
  end.

Definition prank (bound : nat) (ph : pphase) : nat :=
  match ph with
  | PIdle => bound + bound + 4
  | PReading => bound + bound + 3
  | PPosting rest all => length rest + length all + 2
  | PNotifying rest => length rest
  end.

Fixpoint pwork (bound : nat) (pphs : list ((PVStructure * BitSet) * pphase)) : nat :=
  match pphs with
  | [] => 0
  | x :: pphs' => prank bound x.2 + pwork bound pphs'
  end.

(** The invariant of a pool made of one [createMonitor] and any number of
    posting threads, on a record that is open and had the monitors
    [init]: the type, the value and the valid set stay; the threads are
    at points of their bodies; the mutex excludes; the monitor list is
    [init], followed by the new queue once the creating thread has
    appended it; until the creating thread has taken the lock no posting
    thread is about to post to the new queue; and the queue is what the
    point of the creating thread says. *)
Definition seeding (ret : addr) (ty : Structure) (value : PVStructure)
    (vld : BitSet) (init : list addr) (mph : mphase)
    (pphs : list ((PVStructure * BitSet) * pphase)) c : Prop :=
  (type (shared c) = Some ty ∧ current (shared c) = Some value
   ∧ valid (shared c) = vld)
  ∧ threads c = monitor_at ret ty value vld mph :: (poster_code <$> pphs)
  ∧ exclusion c
  ∧ ((ret ∉ init)
     ∧ monitors (shared c) = init ++ (if registered mph then [ret] else []))
  ∧ (mph = MIdle → ∀ j x, pphs !! j = Some x → ret ∉ posting_to x.2)
  ∧ seeded ty value vld mph (MonitorFIFO_after ret (events (trace c))).

(** *** Every method of the file, as a request *)

Inductive method : Type :=
| open_channel (this : addr)
| close_channel (this : addr)
| get_field (requester : addr) (subField : string)
| create_put (requester : addr) (pvRequest : shared_pointer PVStructure) (ret : addr)
| create_rpc (requester : addr) (pvRequest : shared_pointer PVStructure) (ret : addr)
| create_monitor (requester : addr) (pvRequest : shared_pointer PVStructure) (ret : addr)
| close_monitor (this : addr).

Definition invoke (m : method) : prog :=
  match m with
  | open_channel this => SharedChannel_ctor this
  | close_channel this => SharedChannel_dtor this
  | get_field requester subField => getField requester subField
  | create_put requester pvRequest ret => createChannelPut requester pvRequest ret
  | create_rpc requester pvRequest ret => createChannelRPC requester pvRequest ret
  | create_monitor requester pvRequest ret => createMonitor requester pvRequest ret
  | close_monitor this => SharedMonitorFIFO_dtor this
  end.

(** The operation a request creates, and the requester a [getField]
    request comes from. *)
Definition created_put (m : method) : option addr :=
  match m with create_put _ _ ret => Some ret | _ => None end.

Definition created_rpc (m : method) : option addr :=
  match m with create_rpc _ _ ret => Some ret | _ => None end.

Definition asked_field (m : method) : option addr :=
  match m with get_field requester _ => Some requester | _ => None end.


(** A thread that has run into a null dereference. *)
Definition faulted (p : prog) : bool :=
  match p with Fault => true | _ => false end.



(** *** Invariants of a pool of destructors *)

(** The points of the destructor's body, with the handler captured so
    far. *)
Inductive dphase : Type :=
| DIdle
| DRemoving
| DChecking
| DRelocking
| DCapturing
| DInner (h : shared_pointer addr)
| DLeaving (h : shared_pointer addr)
| DNotifying (h : addr)
| DFinished.

(** The rest of the destructor's body from each of these points. *)
Definition dtor_leave (h : shared_pointer addr) : prog :=
  Unlock (
    match h with
    | Some h => Emit (onLastDisconnect h) (Ret void)
    | None => Ret void
    end).

Definition dtor_at this (ph : dphase) : prog :=
  match ph with
  | DIdle => SharedChannel_dtor this
  | DRemoving => Write (set_channels (remove this)) (dtor_check this)
  | DChecking => dtor_check this
  | DRelocking => Lock (Read handler (λ h, Unlock (dtor_leave h)))
  | DCapturing => Read handler (λ h, Unlock (dtor_leave h))
  | DInner h => Unlock (dtor_leave h)
  | DLeaving h => dtor_leave h
  | DNotifying h => Emit (onLastDisconnect h) (Ret void)
  | DFinished => Ret void
  end.

Definition dcode (x : addr * dphase) : prog := dtor_at x.1 x.2.

(** How many times a thread at a point holds the mutex, and an upper bound
    on the steps left from there. *)
Definition ddepth (ph : dphase) : nat :=
  match ph with
  | DIdle | DNotifying _ | DFinished => 0
  | DRemoving | DChecking | DRelocking | DLeaving _ => 1
  | DCapturing | DInner _ => 2
  end.

Definition drank (ph : dphase) : nat :=
  match ph with
  | DIdle => 8
  | DRemoving => 7
  | DChecking => 6
  | DRelocking => 5
  | DCapturing => 4
  | DInner _ => 3
  | DLeaving _ => 2
  | DNotifying _ => 1
  | DFinished => 0
  end.

Fixpoint dwork (phs : list (addr * dphase)) : nat :=
  match phs with
  | [] => 0
  | x :: phs' => drank x.2 + dwork phs'
  end.

(** The points before the removal; the channels of the threads that are
    still before it. *)
Definition unremoved (ph : dphase) : bool :=
  match ph with
  | DIdle | DRemoving => true
  | _ => false
  end.

Fixpoint attached (phs : list (addr * dphase)) : list addr :=
  match phs with
  | [] => []
  | x :: phs' => if unremoved x.2 then x.1 :: attached phs' else attached phs'
  end.

(** The points a thread can be at while nobody has captured the handler;
    those between the removal and the capture; those after the test has
    found the list empty; the points at which a thread has captured the
    handler and not yet called it; the points of a thread that is past its
    test and will not call it. *)
Definition dpre (ph : dphase) : Prop :=
  match ph with
  | DIdle | DRemoving | DChecking | DRelocking | DCapturing
  | DLeaving None | DFinished => True
  | _ => False
  end.

Definition dchecking (ph : dphase) : Prop :=
  match ph with
  | DChecking | DRelocking | DCapturing => True
  | _ => False
  end.

Definition dseen_empty (ph : dphase) : Prop :=
  match ph with
  | DRelocking | DCapturing => True
  | _ => False
  end.

Definition dtoken hd (ph : dphase) : Prop :=
  match ph with
  | DInner (Some h) | DLeaving (Some h) | DNotifying h => h = hd
  | _ => False
  end.

Definition dpost (ph : dphase) : Prop :=
  match ph with
  | DLeaving None | DFinished => True
  | _ => False
  end.

(** The three stages of a pool of destructors: nobody has captured the
    handler; one thread has, and has not yet called it; it has been
    called. *)
Definition dstage hd (phs : list (addr * dphase)) (cbs : list Event) : Prop :=
  (cbs = []
   ∧ (∀ j y, phs !! j = Some y → dpre y.2)
   ∧ (attached phs = [] → ∃ j y, phs !! j = Some y ∧ dchecking y.2)
   ∧ (∀ j y, phs !! j = Some y → dseen_empty y.2 → attached phs = []))
  ∨ (cbs = [] ∧ attached phs = []
     ∧ ∃ i x, phs !! i = Some x ∧ dtoken hd x.2
       ∧ ∀ j y, j ≠ i → phs !! j = Some y → dpost y.2)
  ∨ (cbs = [onLastDisconnect hd] ∧ attached phs = []
     ∧ ∀ j y, phs !! j = Some y → dpost y.2).

(** No other thread holds the mutex. *)
Definition dalone (phs : list (addr * dphase)) (i : nat) : Prop :=
  ∀ j y, j ≠ i → phs !! j = Some y → ddepth y.2 = 0.

(** The invariant of a pool of destructors, one for each of the distinct
    channels [cs]: the handler stays attached, every thread is at a point
    of the destructor's body, the mutex excludes, the record lists the
    channels of the threads that have not yet removed theirs, and the pool
    is in one of the three stages. *)
Definition closing hd (cs : list addr) (phs : list (addr * dphase)) c : Prop :=
  handler (shared c) = Some hd
  ∧ threads c = dcode <$> phs
  ∧ exclusion c
  ∧ phs.*1 = cs
  ∧ NoDup cs
  ∧ channels (shared c) ≡ₚ attached phs
  ∧ dstage hd phs (callbacks (trace c)).

End WithData.

Arguments SharedPV : clear implicits.
Arguments Event : clear implicits.
Arguments Obs : clear implicits.
Arguments prog : clear implicits.
Arguments config : clear implicits.
Arguments MonitorFIFO : clear implicits.
Arguments method : clear implicits.

End SharedState.

(** ** Operations ([Operation] and [Operation::Impl::Cleanup]) *)

Module Operation.

Section WithData.

Context {PVStructure BitSet : Type}.

(** A [pva::Channel], as far as [Operation] looks into it. *)
Record Channel : Type := {
  getChannelName : string
}.

(** The data members of [Operation::Impl]. *)
Record Impl : Type := {
  pvRequest : shared_pointer PVStructure;
  value : shared_pointer PVStructure;
  changed : BitSet;
  done : bool;
  debugLvl : Z
}.

(** What an implementation of [complete] hands to a requester. *)
Record Delivery : Type := {
  to : addr;
  status : Status;
  payload : option PVStructure
}.

(** The pure virtual methods of [Operation::Impl].  [getChannel] and
    [getRequester] resolve weak references and give [None] once the
    referent is gone.  [complete] receives the status and a possibly null
    pointer to a value; it may update the members and call a requester,
    and is taken to return normally. *)
Class Virtuals : Type := {
  getChannel : Impl → shared_pointer Channel;
  getRequester : Impl → shared_pointer addr;
  complete : Status → option PVStructure → Impl → Impl * list Delivery
}.

(** What an observer of one operation sees: [Guard G(impl->mutex)]
    entering and leaving scope, the calls of the virtual [complete] and
    what they deliver, the messages sent to the requester, and the
    deletion of the [Impl]. *)
Inductive Event : Type :=
| Lock_impl
| Unlock_impl
| Call_complete (sts : Status) (value : option PVStructure)
| Deliver (d : Delivery)
| message (requester : addr) (msg : string) (ty : MessageType)
| Delete.

Context {V : Virtuals}.

(** [impl->complete(sts, value)]: the call, then whatever the
    implementation delivers. *)
Definition impl_complete (sts : Status) (value : option PVStructure)
    (impl : Impl) : Impl * list Event :=
  let '(impl', ds) := complete sts value impl in
  (impl', Call_complete sts value :: (Deliver <$> ds)).

(** [Operation::complete()] *)
Definition Operation_complete (impl : Impl) : Impl * list Event :=
  impl_complete Status_default None impl.

(** [Operation::complete(const Status& sts)] *)
Definition Operation_complete_status (sts : Status) (impl : Impl) : Impl * list Event :=
  impl_complete sts None impl.

(** [Operation::complete(const PVStructure& value, const BitSet& changed)] *)
Definition Operation_complete_value (value : PVStructure) (changed : BitSet)
    (impl : Impl) : Impl * list Event :=
  impl_complete Status_default (Some value) impl.

(** [Operation::channelName] *)
Definition Operation_channelName (impl : Impl) : string :=
  let ret := "" in
  match getChannel impl with
  | Some chan => getChannelName chan
  | None => ret
  end.

(** [Operation::info] and [Operation::warn] *)
Definition Operation_info (msg : string) (impl : Impl) : list Event :=
  match getRequester impl with
  | Some req => [message req msg infoMessage]
  | None => []
  end.

Definition Operation_warn (msg : string) (impl : Impl) : list Event :=
  match getRequester impl with
  | Some req => [message req msg warningMessage]
  | None => []
  end.

(** [Operation::isDebug] *)
Definition Operation_isDebug (impl : Impl) : Z * list Event :=
  (debugLvl impl, [Lock_impl; Unlock_impl]).

(** [Operation::Impl::Cleanup::operator()], the deleter of the shared
    [Impl]. *)
Definition Cleanup (impl : Impl) : list Event :=
  let err := negb (done impl) in
  [Lock_impl; Unlock_impl]
  ++ (if err
      then snd (impl_complete (Status_error "Implicit Cancel") None impl)
      else [])
  ++ [Delete].

(** The three completion entry points, as one type of requests. *)
Inductive entry : Type :=
| complete0
| complete1 (sts : Status)
| complete2 (value : PVStructure) (changed : BitSet).

(** The status and the value an entry point passes on. *)
Definition status_of (e : entry) : Status :=
  match e with
  | complete1 sts => sts
  | _ => Status_default
  end.

Definition payload_of (e : entry) : option PVStructure :=
  match e with
  | complete2 val _ => Some val
  | _ => None
  end.

Definition call (e : entry) (impl : Impl) : Impl * list Event :=
  match e with
  | complete0 => Operation_complete impl
  | complete1 sts => Operation_complete_status sts impl
  | complete2 value changed => Operation_complete_value value changed impl
  end.

Fixpoint calls (es : list entry) (impl : Impl) : Impl * list Event :=
  match es with
  | [] => (impl, [])
  | e :: es' =>
      let '(impl1, t1) := call e impl in
      let '(impl2, t2) := calls es' impl1 in
      (impl2, t1 ++ t2)
  end.

(** What a log delivers to requesters, and the calls of [complete] in it. *)
Definition deliveries (t : list Event) : list Delivery :=
  omap (λ e, match e with Deliver d => Some d | _ => None end) t.

Definition completions (t : list Event) : list (Status * option PVStructure) :=
  omap (λ e, match e with Call_complete s v => Some (s, v) | _ => None end) t.

End WithData.

Arguments Impl : clear implicits.
Arguments Delivery : clear implicits.
Arguments Virtuals : clear implicits.
Arguments Event : clear implicits.
Arguments entry : clear implicits.

Section SpecModel.

Context {PVStructure BitSet : Type}.

Definition set_done (impl : Impl PVStructure BitSet) : Impl PVStructure BitSet :=
  {| pvRequest := pvRequest impl; value := value impl; changed := changed impl;
     done := true; debugLvl := debugLvl impl |}.

(** Modelled from the spec: the body of [Operation::Impl::complete], which
    the put and rpc implementations define outside these sources.
    Completion is a single-use transition guarded by the completed flag:
    the first call sets the flag and notifies the requester if its weak
    reference is still reachable; a call on a completed operation is a
    no-op and notifies nobody. *)
Definition complete_once (requester : Impl PVStructure BitSet → shared_pointer addr)
    (sts : Status) (val : option PVStructure) (impl : Impl PVStructure BitSet)
    : Impl PVStructure BitSet * list (Delivery PVStructure) :=
  if done impl then (impl, [])
  else (set_done impl,
        match requester impl with
        | Some req => [{| to := req; status := sts; payload := val |}]
        | None => []
        end).

Definition spec_virtuals
    (channel : Impl PVStructure BitSet → shared_pointer Channel)
    (requester : Impl PVStructure BitSet → shared_pointer addr)
    : Virtuals PVStructure BitSet :=
  {| getChannel := channel;
     getRequester := requester;
     complete := complete_once requester |}.

End SpecModel.

End Operation.

(** ** Sample data *)

(** A factory named "pva", one named "pvAccess" and one named "ca", handing
    out numbered providers. *)
Definition pva_factory : Registry.ChannelProviderFactory nat :=
  {| Registry.getFactoryName := "pva";
     Registry.sharedInstance := Some 1;
     Registry.newInstance := Some 2 |}.

Definition legacy_factory : Registry.ChannelProviderFactory nat :=
  {| Registry.getFactoryName := "pvAccess";
     Registry.sharedInstance := Some 3;
     Registry.newInstance := Some 4 |}.

Definition ca_factory : Registry.ChannelProviderFactory nat :=
  {| Registry.getFactoryName := "ca";
     Registry.sharedInstance := Some 5;
     Registry.newInstance := Some 6 |}.


(** A record that has not been opened and has no channels, with a handler
    attached; the same record opened, with one channel. *)
Definition fresh_record : SharedState.SharedPV nat nat nat :=
  {| SharedState.type := None;
     SharedState.current := None;
     SharedState.valid := 0;
     SharedState.handler := Some 7;
     SharedState.channels := [];
     SharedState.puts := [];
     SharedState.rpcs := [];
     SharedState.monitors := [];
     SharedState.getfields := [] |}.

Definition opened_record_10 : SharedState.SharedPV nat nat nat :=
  {| SharedState.type := Some 1;
     SharedState.current := Some 42;
     SharedState.valid := 3;
     SharedState.handler := Some 7;
     SharedState.channels := [10];
     SharedState.puts := [];
     SharedState.rpcs := [];
     SharedState.monitors := [];
     SharedState.getfields := [] |}.

(** A pending operation and a completed one. *)
Definition pending_impl : Operation.Impl nat nat :=
  {| Operation.pvRequest := Some 0;
     Operation.value := Some 0;
     Operation.changed := 0;
     Operation.done := false;
     Operation.debugLvl := 0 |}.

Definition completed_impl : Operation.Impl nat nat :=
  {| Operation.pvRequest := Some 0;
     Operation.value := Some 0;
     Operation.changed := 0;
     Operation.done := true;
     Operation.debugLvl := 0 |}.

(** An operation whose channel and requester are both reachable, and one
    for which both are gone. *)
Definition reachable : Operation.Virtuals nat nat :=
  Operation.spec_virtuals
    (λ _, Some {| Operation.getChannelName := "pv:counter" |}) (λ _, Some 9).

Definition expired : Operation.Virtuals nat nat :=
  Operation.spec_virtuals (λ _, None) (λ _, None).

(** Two channels opened at the same time: the first thread runs up to the
    release of the lock, the second takes the lock before the first has
    called the handler. *)
Definition two_opens : list nat := [0; 0; 0; 0; 0; 1; 0; 1; 1; 1].


(** A record without handler and without channels, and the attachment of
    a handler to a record. *)
Definition bare_record : SharedState.SharedPV nat nat nat :=
  {| SharedState.type := None;
     SharedState.current := None;
     SharedState.valid := 0;
     SharedState.handler := None;
     SharedState.channels := [];
     SharedState.puts := [];
     SharedState.rpcs := [];
     SharedState.monitors := [];
     SharedState.getfields := [] |}.

Definition with_handler (h : addr) (pv : SharedState.SharedPV nat nat nat) :
    SharedState.SharedPV nat nat nat :=
  {| SharedState.type := SharedState.type pv;
     SharedState.current := SharedState.current pv;
     SharedState.valid := SharedState.valid pv;
     SharedState.handler := Some h;
     SharedState.channels := SharedState.channels pv;
     SharedState.puts := SharedState.puts pv;
     SharedState.rpcs := SharedState.rpcs pv;
     SharedState.monitors := SharedState.monitors pv;
     SharedState.getfields := SharedState.getfields pv |}.
(** ** More sample data *)

(** A second factory named "pva". *)
Definition pva_factory_2 : Registry.ChannelProviderFactory nat :=
  {| Registry.getFactoryName := "pva";
     Registry.sharedInstance := Some 11;
     Registry.newInstance := Some 12 |}.

(** An opened record with two channels. *)
Definition opened_record_10_11 : SharedState.SharedPV nat nat nat :=
  {| SharedState.type := Some 1;
     SharedState.current := Some 42;
     SharedState.valid := 3;
     SharedState.handler := Some 7;
     SharedState.channels := [10; 11];
     SharedState.puts := [];
     SharedState.rpcs := [];
     SharedState.monitors := [];
     SharedState.getfields := [] |}.

(** A channel being opened while a put is created and a type is asked
    for; the first thread has taken the lock, the third has returned. *)
Definition busy_pool : list (SharedState.method nat) :=
  [SharedState.open_channel 10;
   SharedState.create_put 9 (Some 0) 20;
   SharedState.get_field 8 ""].

Definition busy_schedule : list nat := [2; 2; 2; 2; 0; 0].

(** Two destructors: the first removes its channel and leaves, the second
    has removed the last channel and is about to call the handler. *)
Definition two_closes : list nat := [0; 0; 0; 0; 1; 1; 1; 1; 1; 1; 1; 1].

(** An implementation of [complete] that calls the requester and leaves
    the completed flag alone. *)
Definition forgetful : Operation.Virtuals nat nat :=
  {| Operation.getChannel := λ _, None;
     Operation.getRequester := λ _, Some 9;
     Operation.complete := λ sts val impl,
       (impl, [{| Operation.to := 9; Operation.status := sts;
                  Operation.payload := val |}]) |}.

(** A monitor created while another thread posts an update: the creating
    thread runs up to the release of the lock, then the posting thread
    takes the lock and posts; and the same schedule run on until both
    threads have returned. *)
Definition late_update : list nat := [0; 0; 0; 0; 0; 0; 0; 0; 0; 1; 1; 1].

Definition late_update_done : list nat := late_update ++ [1; 1; 0].


(** Calls on an opened record. *)
Definition calls_on_open : list (SharedState.method nat) :=
  [SharedState.create_monitor 9 (Some 0) 30;
   SharedState.create_put 9 (Some 0) 20;
   SharedState.get_field 8 "";
   SharedState.close_monitor 30].
(** * Properties *)

(** ** The provider registry *)

Section RegistryFacts.

Import Registry.

Context {ChannelProvider : Type}.

Implicit Types (f : ChannelProviderFactory ChannelProvider).
Implicit Types (m : gmap string (ChannelProviderFactory ChannelProvider)).

Lemma redirect_other (name : string) :
  name ≠ "pvAccess" → redirect name = name.
Proof.
  intros Hne. unfold redirect.
  destruct (String.eqb_spec name "pvAccess"); [contradiction | reflexivity].
Qed.

Lemma getProvider_lookup m (name : string) :
  getProvider m name = m !! redirect name ≫= sharedInstance.
Proof. unfold getProvider. by destruct (m !! redirect name). Qed.

Lemma createProvider_lookup m (name : string) :
  createProvider m name = m !! redirect name ≫= newInstance.
Proof. unfold createProvider. by destruct (m !! redirect name). Qed.

(** C7: a lookup or a creation by the historical name "pvAccess" gives
    what the same call gives for the canonical name "pva", whatever the
    registry holds: the name is replaced before the map is searched, so
    that both calls search the map for "pva". *)
Theorem legacy_name_redirected m :
  getProvider m "pvAccess" = getProvider m "pva"
  ∧ createProvider m "pvAccess" = createProvider m "pva"
  ∧ getProvider m "pvAccess" = m !! "pva" ≫= sharedInstance
  ∧ createProvider m "pvAccess" = m !! "pva" ≫= newInstance.
Proof.
  rewrite !getProvider_lookup, !createProvider_lookup.
  change (redirect "pvAccess") with "pva".
  change (redirect "pva") with "pva".
  done.
Qed.

(** C8, amended: for a factory whose name is not the historical alias
    "pvAccess", lookup and creation by that name right after registration
    give what the factory's [sharedInstance] and [newInstance] produce;
    after the factory is unregistered both give the empty pointer; and
    both give the empty pointer for every name, other than the alias,
    under which the map holds nothing. *)
Theorem register_lookup_unregister f m (name : string) :
  getFactoryName f ≠ "pvAccess" →
  name ≠ "pvAccess" →
  m !! name = None →
  let registered := registerChannelProviderFactory f m in
  let unregistered := unregisterChannelProviderFactory f registered in
  getProvider registered (getFactoryName f) = sharedInstance f
  ∧ createProvider registered (getFactoryName f) = newInstance f
  ∧ getProvider unregistered (getFactoryName f) = None
  ∧ createProvider unregistered (getFactoryName f) = None
  ∧ getProvider m name = None
  ∧ createProvider m name = None.
Proof.
  intros Hf Hname Hfree registered unregistered.
  subst registered unregistered.
  unfold registerChannelProviderFactory, unregisterChannelProviderFactory.
  rewrite !getProvider_lookup, !createProvider_lookup.
  rewrite !(redirect_other _ Hf), !(redirect_other _ Hname).
  rewrite lookup_insert_eq, lookup_delete_eq, Hfree.
  done.
Qed.

End RegistryFacts.

Lemma register_lookup_unregister_ca :
  let registered := Registry.registerChannelProviderFactory ca_factory ∅ in
  let unregistered := Registry.unregisterChannelProviderFactory ca_factory registered in
  Registry.getProvider registered "ca" = Some 5
  ∧ Registry.createProvider registered "ca" = Some 6
  ∧ Registry.getProvider unregistered "ca" = None
  ∧ Registry.createProvider unregistered "ca" = None
  ∧ Registry.getProvider (∅ : gmap string (Registry.ChannelProviderFactory nat)) "local" = None
  ∧ Registry.createProvider (∅ : gmap string (Registry.ChannelProviderFactory nat)) "local" = None.
Proof.
  apply (register_lookup_unregister ca_factory ∅ "local").
  - discriminate.
  - discriminate.
  - apply lookup_empty.
Defined.

(** A factory registered under the name "pvAccess" cannot be reached by that
    name: the lookup is redirected to "pva", where nothing is registered.
    And with only "pva" registered, the never registered name "pvAccess"
    finds a provider. *)
Lemma legacy_name_not_served :
  Registry.getProvider
    (Registry.registerChannelProviderFactory legacy_factory ∅) "pvAccess" = None
  ∧ Registry.createProvider
    (Registry.registerChannelProviderFactory legacy_factory ∅) "pvAccess" = None
  ∧ Registry.sharedInstance legacy_factory = Some 3
  ∧ Registry.newInstance legacy_factory = Some 4
  ∧ (Registry.registerChannelProviderFactory pva_factory ∅ : gmap string _) !! "pvAccess" = None
  ∧ Registry.getProvider
    (Registry.registerChannelProviderFactory pva_factory ∅) "pvAccess" = Some 1.
Proof.
  unfold Registry.registerChannelProviderFactory.
  rewrite !getProvider_lookup, !createProvider_lookup.
  change (Registry.redirect "pvAccess") with "pva". cbn.
  rewrite lookup_insert_eq.
  rewrite !lookup_insert_ne by discriminate.
  rewrite !lookup_empty. done.
Qed.

(** ** The provider registry: names, replacement, the registry object *)

Section RegistryMore.

Import Registry RegistryNames.

Context {ChannelProvider : Type}.

Implicit Types (f g : ChannelProviderFactory ChannelProvider).
Implicit Types (m : gmap string (ChannelProviderFactory ChannelProvider)).
Implicit Types (n : string).

Lemma redirect_not_legacy n : redirect n ≠ "pvAccess".
Proof.
  unfold redirect. destruct (String.eqb_spec n "pvAccess"); [discriminate | done].
Qed.

Lemma elem_of_getProviderNames m n : n ∈ getProviderNames m ↔ is_Some (m !! n).
Proof.
  unfold getProviderNames. rewrite merge_sort_Permutation.
  rewrite list_elem_of_fmap. split.
  - intros ([k x] & -> & Hin). apply elem_of_map_to_list in Hin. by exists x.
  - intros [x Hx]. exists (n, x). split; [done |]. by apply elem_of_map_to_list.
Qed.

Lemma length_getProviderNames m : length (getProviderNames m) = size m.
Proof.
  unfold getProviderNames. rewrite merge_sort_Permutation, length_fmap.
  apply length_map_to_list.
Qed.

(** X1: [getProviderNames] lists every registered name exactly once, in
    the order of the map's keys, and nothing else: there are as many names
    as entries, and a name is listed just when the map has an entry under
    it. *)
Theorem getProviderNames_registered m :
  NoDup (getProviderNames m)
  ∧ Sorted string_le (getProviderNames m)
  ∧ length (getProviderNames m) = size m
  ∧ (∀ n, n ∈ getProviderNames m ↔ is_Some (m !! n)).
Proof.
  split_and!.
  - unfold getProviderNames. rewrite merge_sort_Permutation.
    apply NoDup_fst_map_to_list.
  - apply (Sorted_merge_sort string_le).
  - apply length_getProviderNames.
  - apply elem_of_getProviderNames.
Qed.

(** X2: registering a factory adds its name to the listed names and no
    other; unregistering it takes away its name and no other; the list
    grows by one on registration just when the name was not registered
    before. *)
Theorem getProviderNames_register_unregister f m n :
  (n ∈ getProviderNames (registerChannelProviderFactory f m)
   ↔ n = getFactoryName f ∨ n ∈ getProviderNames m)
  ∧ (n ∈ getProviderNames (unregisterChannelProviderFactory f m)
     ↔ n ≠ getFactoryName f ∧ n ∈ getProviderNames m)
  ∧ length (getProviderNames (registerChannelProviderFactory f m))
    = (if decide (is_Some (m !! getFactoryName f))
       then length (getProviderNames m)
       else S (length (getProviderNames m))).
Proof.
  unfold registerChannelProviderFactory, unregisterChannelProviderFactory.
  rewrite !elem_of_getProviderNames. split_and!.
  - rewrite lookup_insert_is_Some. split.
    + intros [->|[_ H]]; [by left | by right].
    + intros [->|H]; [by left |].
      destruct (decide (getFactoryName f = n)); [by left | by right].
  - rewrite lookup_delete_is_Some. split; intros [H1 H2]; split; done.
  - rewrite !length_getProviderNames.
    case_decide as Hin.
    + destruct Hin as [x Hx]. rewrite <-(insert_delete_id m (getFactoryName f) x) at 2 by done.
      rewrite <-insert_delete_eq.
      rewrite !map_size_insert_None by apply lookup_delete_eq. done.
    + apply map_size_insert_None. by apply eq_None_not_Some.
Qed.

(** X3: the registry goes by the factory's name only.  Registering a
    second factory under a name replaces the first; unregistering through
    either of them removes the entry, whichever of the two is registered;
    unregistering a name that is not registered changes nothing; after the
    replacement, every lookup that searches the map for that name (the
    requested name after the redirection of "pvAccess" to "pva") is served
    by the second factory: lookups by the name itself unless the name is
    "pvAccess", and lookups by "pvAccess" when the name is "pva". *)
Theorem registration_by_name f g m :
  getFactoryName g = getFactoryName f →
  let replaced :=
    registerChannelProviderFactory g (registerChannelProviderFactory f m) in
  replaced = registerChannelProviderFactory g m
  ∧ unregisterChannelProviderFactory f (registerChannelProviderFactory g m)
    = unregisterChannelProviderFactory g m
  ∧ unregisterChannelProviderFactory f (registerChannelProviderFactory g m)
      !! getFactoryName g = None
  ∧ (m !! getFactoryName f = None → unregisterChannelProviderFactory f m = m)
  ∧ (∀ n, redirect n = getFactoryName f →
       getProvider replaced n = sharedInstance g
       ∧ createProvider replaced n = newInstance g)
  ∧ (getFactoryName g ≠ "pvAccess" →
       getProvider replaced (getFactoryName f) = sharedInstance g
       ∧ createProvider replaced (getFactoryName f) = newInstance g)
  ∧ (getFactoryName g = "pva" →
       getProvider replaced "pvAccess" = sharedInstance g
       ∧ createProvider replaced "pvAccess" = newInstance g).
Proof.
  intros Hname replaced. subst replaced.
  assert (Hserved : ∀ n, redirect n = getFactoryName f →
    getProvider
      (registerChannelProviderFactory g (registerChannelProviderFactory f m)) n
    = sharedInstance g
    ∧ createProvider
        (registerChannelProviderFactory g (registerChannelProviderFactory f m)) n
      = newInstance g).
  { intros n Hn. unfold registerChannelProviderFactory.
    rewrite getProvider_lookup, createProvider_lookup, Hn, Hname.
    by rewrite insert_insert_eq, lookup_insert_eq. }
  split_and!.
  - unfold registerChannelProviderFactory. rewrite Hname. apply insert_insert_eq.
  - unfold registerChannelProviderFactory, unregisterChannelProviderFactory.
    rewrite Hname. apply delete_insert_eq.
  - unfold registerChannelProviderFactory, unregisterChannelProviderFactory.
    rewrite Hname. apply lookup_delete_eq.
  - unfold unregisterChannelProviderFactory. apply delete_id.
  - exact Hserved.
  - intros Hne. apply Hserved, redirect_other. by rewrite <-Hname.
  - intros Hpva. apply Hserved. by rewrite <-Hname, Hpva.
Qed.

(** X4: a factory whose own name is "pvAccess" is stored under a key that
    no lookup reaches: registering or unregistering it changes the result
    of [getProvider] and [createProvider] for no name at all, although the
    name is listed by [getProviderNames]. *)
Theorem lookups_ignore_legacy_key f m n :
  getFactoryName f = "pvAccess" →
  getProvider (registerChannelProviderFactory f m) n = getProvider m n
  ∧ createProvider (registerChannelProviderFactory f m) n = createProvider m n
  ∧ getProvider (unregisterChannelProviderFactory f m) n = getProvider m n
  ∧ createProvider (unregisterChannelProviderFactory f m) n = createProvider m n
  ∧ "pvAccess" ∈ getProviderNames (registerChannelProviderFactory f m).
Proof.
  intros Hname.
  unfold registerChannelProviderFactory, unregisterChannelProviderFactory.
  rewrite !getProvider_lookup, !createProvider_lookup, Hname.
  pose proof (redirect_not_legacy n) as Hne.
  rewrite lookup_insert_ne, lookup_delete_ne by done.
  split_and!; [done.. |].
  apply elem_of_getProviderNames. rewrite lookup_insert_eq. by eexists.
Qed.

End RegistryMore.

Section RegistryObject.

Import RegistryNames.

Lemma getChannelProviderRegistry_calls_set (allocs : list nat) (r : nat) :
  getChannelProviderRegistry_calls allocs (Some r)
  = (replicate (length allocs) (Some r), Some r).
Proof.
  induction allocs as [|a allocs IH]; [done |].
  cbn [getChannelProviderRegistry_calls getChannelProviderRegistry length replicate].
  by rewrite IH.
Qed.

(** X5: the registry object is made at most once.  In any series of calls
    of [getChannelProviderRegistry] every call returns the same object:
    the one the static pointer held before, or else the one the first call
    allocated; later allocations are never used. *)
Theorem registry_created_once (fresh : nat) (allocs : list nat)
    (global : shared_pointer nat) :
  let first := default fresh global in
  getChannelProviderRegistry_calls (fresh :: allocs) global
  = (replicate (S (length allocs)) (Some first), Some first).
Proof.
  cbn. destruct global as [r|]; cbn.
  - by rewrite getChannelProviderRegistry_calls_set.
  - by rewrite getChannelProviderRegistry_calls_set.
Qed.

End RegistryObject.

(** ** Operations *)

Section OperationFacts.

Import Operation.

Context {PVStructure BitSet : Type}.

Implicit Types (impl : Impl PVStructure BitSet).

Section AnyImplementation.

Context {V : Virtuals PVStructure BitSet}.

Lemma completions_impl_complete sts (val : option PVStructure) impl :
  completions (impl_complete sts val impl).2 = [(sts, val)].
Proof.
  unfold impl_complete. destruct (complete sts val impl) as [impl' ds]. cbn.
  f_equal. induction ds as [|d ds IH]; [done | exact IH].
Qed.

Lemma Delete_not_in_impl_complete sts (val : option PVStructure) impl :
  Delete ∉ (impl_complete sts val impl).2.
Proof.
  unfold impl_complete. destruct (complete sts val impl) as [impl' ds]. cbn.
  intros Hin. apply elem_of_cons in Hin as [Hin | Hin]; [discriminate |].
  apply list_elem_of_fmap in Hin as (d & Hd & _). discriminate.
Qed.

(** C1: the deleter of a pending operation calls [complete] exactly
    once, with the error status "Implicit Cancel" (a failure) and no
    value, and only then deletes the operation; the deleter of a
    completed operation calls [complete] not at all and just deletes
    it. *)
Theorem cleanup_implicit_cancel impl :
  ∃ before : list (Event PVStructure),
    Cleanup impl = before ++ [Delete]
    ∧ (Delete ∉ before)
    ∧ completions before =
        (if done impl then [] else [(Status_error "Implicit Cancel", None)])
    ∧ isSuccess (Status_error "Implicit Cancel") = false
    ∧ (done impl = true → before = [Lock_impl; Unlock_impl]).
Proof.
  unfold Cleanup. destruct (done impl); cbn [negb].
  - exists [Lock_impl; Unlock_impl]. split_and!; [done | | done | done | done].
    intros Hin. repeat (apply elem_of_cons in Hin as [Hin | Hin]; [discriminate |]).
    by apply elem_of_nil in Hin.
  - eexists. split; [rewrite app_assoc; reflexivity |].
    split_and!.
    + intros Hin. apply elem_of_app in Hin as [Hin | Hin].
      * repeat (apply elem_of_cons in Hin as [Hin | Hin]; [discriminate |]).
        by apply elem_of_nil in Hin.
      * by apply Delete_not_in_impl_complete in Hin.
    + cbn. apply completions_impl_complete.
    + done.
    + discriminate.
Qed.

(** C9: [channelName] is the name of the owning channel while that
    channel exists and the empty string once it is gone; [info] and
    [warn] hand the message to the requester, as an info and as a
    warning message, while the requester is reachable, and do nothing
    at all once it is not. *)
Theorem expired_references_tolerated impl (msg : string) :
  (getChannel impl = None → Operation_channelName impl = "")
  ∧ (∀ chan, getChannel impl = Some chan →
       Operation_channelName impl = getChannelName chan)
  ∧ (∀ req, getRequester impl = Some req →
       Operation_info msg impl = [message req msg infoMessage]
       ∧ Operation_warn msg impl = [message req msg warningMessage])
  ∧ (getRequester impl = None →
       Operation_info msg impl = [] ∧ Operation_warn msg impl = []).
Proof.
  unfold Operation_channelName, Operation_info, Operation_warn.
  split_and!.
  - by intros ->.
  - by intros chan ->.
  - by intros req ->.
  - by intros ->.
Qed.

(** C10: [complete(value, changed)] passes the success status and the
    value, and nothing else, to the implementation's [complete]: the
    outcome is that of [impl->complete(Status(), &value)] and is the
    same for every change set. *)
Theorem change_set_discarded (val : PVStructure) (chg chg' : BitSet) impl :
  Operation_complete_value val chg impl = impl_complete Status_default (Some val) impl
  ∧ completions (Operation_complete_value val chg impl).2
    = [(Status_default, Some val)]
  ∧ isSuccess Status_default = true
  ∧ Operation_complete_value val chg impl = Operation_complete_value val chg' impl.
Proof.
  unfold Operation_complete_value.
  split_and!; [done | apply completions_impl_complete | done | done].
Qed.

End AnyImplementation.

Section SingleUse.

Context (channel : Impl PVStructure BitSet → shared_pointer Channel).
Context (requester : Impl PVStructure BitSet → shared_pointer addr).

Local Abbreviation call :=
  (@call PVStructure BitSet (spec_virtuals channel requester)).
Local Abbreviation calls :=
  (@calls PVStructure BitSet (spec_virtuals channel requester)).

Lemma call_complete_once e impl :
  call e impl
  = let '(impl', ds) := complete_once requester (status_of e) (payload_of e) impl in
    (impl', Call_complete (status_of e) (payload_of e) :: (Deliver <$> ds)).
Proof. by destruct e. Qed.

Lemma deliveries_Deliver (ds : list (Delivery PVStructure)) :
  deliveries (Deliver <$> ds) = ds.
Proof.
  induction ds as [|d ds IH]; [done |].
  change (deliveries (Deliver <$> d :: ds)) with (d :: deliveries (Deliver <$> ds)).
  by rewrite IH.
Qed.

Lemma deliveries_app (t1 t2 : list (Event PVStructure)) :
  deliveries (t1 ++ t2) = deliveries t1 ++ deliveries t2.
Proof. apply omap_app. Qed.

Lemma call_sets_done e impl : done (call e impl).1 = true.
Proof.
  rewrite call_complete_once. unfold complete_once.
  destruct (done impl) eqn:Hd; [exact Hd | reflexivity].
Qed.

Lemma call_deliveries e impl :
  deliveries (call e impl).2
  = if done impl then []
    else match requester impl with
         | Some req =>
             [{| to := req; status := status_of e; payload := payload_of e |}]
         | None => []
         end.
Proof.
  rewrite call_complete_once. unfold complete_once.
  destruct (done impl); [done |].
  cbn [snd]. change (deliveries (?x :: ?l)) with (deliveries l).
  by rewrite deliveries_Deliver.
Qed.

Lemma calls_completed es impl :
  done impl = true → deliveries (calls es impl).2 = [].
Proof.
  revert impl. induction es as [|e es IH]; intros impl Hd; [done |].
  cbn [calls].
  pose proof (call_sets_done e impl) as Hd1.
  pose proof (call_deliveries e impl) as He. rewrite Hd in He.
  destruct (call e impl) as [impl1 t1]. cbn [fst snd] in Hd1, He.
  specialize (IH impl1 Hd1).
  destruct (calls es impl1) as [impl2 t2]. cbn [fst snd] in IH |- *.
  by rewrite deliveries_app, He, IH.
Qed.

(** With that completion, the deleter of a pending operation delivers the
    implicit cancel to the requester if it is still reachable, and to
    nobody otherwise; the deleter of a completed operation delivers
    nothing. *)
Lemma cleanup_delivery impl :
  deliveries (Cleanup (V:=spec_virtuals channel requester) impl)
  = if done impl then []
    else match requester impl with
         | Some req =>
             [{| to := req; status := Status_error "Implicit Cancel"; payload := None |}]
         | None => []
         end.
Proof.
  unfold Cleanup. rewrite !deliveries_app.
  destruct (done impl) eqn:Hd; cbn [negb]; [done |].
  change (deliveries [Lock_impl; Unlock_impl]) with (@nil (Delivery PVStructure)).
  change (deliveries [Delete]) with (@nil (Delivery PVStructure)).
  rewrite app_nil_r. cbn [app].
  pose proof (call_deliveries (complete1 (Status_error "Implicit Cancel")) impl) as Hc.
  rewrite Hd in Hc. exact Hc.
Qed.

(** C4: whichever of the three entry points is called first decides
    what the requester receives; entry points called after it deliver
    nothing, so that a requester is notified at most once, and is
    notified with the first call's status and value when the operation
    was pending and the requester reachable. *)
Theorem first_completion_authoritative e es impl :
  deliveries (calls (e :: es) impl).2 = deliveries (call e impl).2
  ∧ length (deliveries (calls (e :: es) impl).2) ≤ 1
  ∧ deliveries (calls es (call e impl).1).2 = []
  ∧ (∀ req, done impl = false → requester impl = Some req →
       deliveries (calls (e :: es) impl).2
       = [{| to := req; status := status_of e; payload := payload_of e |}]).
Proof.
  assert (Hfirst : deliveries (calls (e :: es) impl).2 = deliveries (call e impl).2).
  { cbn [calls].
    pose proof (calls_completed es _ (call_sets_done e impl)) as Hrest.
    destruct (call e impl) as [impl1 t1]. cbn [fst snd] in Hrest.
    destruct (calls es impl1) as [impl2 t2]. cbn [fst snd] in Hrest |- *.
    by rewrite deliveries_app, Hrest, app_nil_r. }
  split_and!.
  - exact Hfirst.
  - rewrite Hfirst, call_deliveries.
    destruct (done impl); [cbn; lia |].
    destruct (requester impl); cbn; lia.
  - apply calls_completed, call_sets_done.
  - intros req Hd Hreq. by rewrite Hfirst, call_deliveries, Hd, Hreq.
Qed.

End SingleUse.

End OperationFacts.

(** ** Operations: the entry points and the deleter, for any implementation *)

Section OperationMore.

Import Operation.

Context {PVStructure BitSet : Type}.
Context {V : Virtuals PVStructure BitSet}.

Implicit Types (impl : Impl PVStructure BitSet).
Implicit Types (es : list (entry PVStructure BitSet)).

Lemma completions_app (t1 t2 : list (Event PVStructure)) :
  completions (t1 ++ t2) = completions t1 ++ completions t2.
Proof. unfold completions. induction t1 as [|[] t1 IH]; cbn; by rewrite ?IH. Qed.

Lemma call_impl_complete (e : entry PVStructure BitSet) impl :
  call e impl = impl_complete (status_of e) (payload_of e) impl.
Proof. by destruct e. Qed.

Lemma impl_complete_events sts (val : option PVStructure) impl (ev : Event PVStructure) :
  ev ∈ (impl_complete sts val impl).2 →
  ev = Call_complete sts val ∨ ∃ d, ev = Deliver d.
Proof.
  unfold impl_complete. destruct (complete sts val impl) as [impl' ds]. cbn.
  intros Hin. apply elem_of_cons in Hin as [-> | Hin]; [by left |].
  apply list_elem_of_fmap in Hin as (d & -> & _). right. by exists d.
Qed.

Lemma calls_events es impl (ev : Event PVStructure) :
  ev ∈ (calls es impl).2 →
  (∃ sts val, ev = Call_complete sts val) ∨ ∃ d, ev = Deliver d.
Proof.
  revert impl. induction es as [|e es IH]; intros impl; cbn [calls].
  - cbn. intros Hin. by apply elem_of_nil in Hin.
  - pose proof (impl_complete_events (status_of e) (payload_of e) impl ev) as He.
    rewrite <-call_impl_complete in He.
    destruct (call e impl) as [impl1 t1]. specialize (IH impl1).
    destruct (calls es impl1) as [impl2 t2]. cbn [fst snd] in *.
    intros Hin. apply elem_of_app in Hin as [Hin | Hin]; [|by apply IH].
    destruct (He Hin) as [-> | Hd]; [left; by eexists _, _ | by right].
Qed.

(** X13: the three [complete] entry points keep no state of their own:
    whatever the implementation, every call reaches the implementation's
    [complete], in order, with the status and the value of the call; and
    the entry points neither take the operation's mutex, nor send a
    message, nor delete the operation. *)
Theorem entry_points_forward_every_call es impl :
  completions (calls es impl).2 = (λ e, (status_of e, payload_of e)) <$> es
  ∧ (Lock_impl ∉ (calls es impl).2)
  ∧ (Unlock_impl ∉ (calls es impl).2)
  ∧ (Delete ∉ (calls es impl).2)
  ∧ (∀ req msg ty, message req msg ty ∉ (calls es impl).2).
Proof.
  split.
  - revert impl. induction es as [|e es IH]; intros impl; [done |].
    cbn [calls fmap list_fmap].
    pose proof (completions_impl_complete (status_of e) (payload_of e) impl) as He.
    rewrite <-call_impl_complete in He.
    destruct (call e impl) as [impl1 t1]. specialize (IH impl1).
    destruct (calls es impl1) as [impl2 t2]. cbn [fst snd] in *.
    by rewrite completions_app, He, IH.
  - split_and!; try intros req msg ty; intros Hin;
      apply calls_events in Hin as [(sts & val & Hev) | (d & Hev)]; discriminate.
Qed.

Lemma calls_done es impl :
  (∀ sts val impl', done (complete sts val impl').1 = true) →
  es ≠ [] → done (calls es impl).1 = true.
Proof.
  intros Hsets. revert impl. induction es as [|e es IH]; intros impl Hne; [done |].
  cbn [calls]. rewrite call_impl_complete. unfold impl_complete.
  pose proof (Hsets (status_of e) (payload_of e) impl) as Hd.
  destruct (complete (status_of e) (payload_of e) impl) as [impl1 ds].
  cbn [fst] in Hd.
  destruct es as [|e' es].
  - cbn. exact Hd.
  - specialize (IH impl1 ltac:(done)).
    destruct (calls (e' :: es) impl1) as [impl2 t2]. exact IH.
Qed.

Lemma calls_pending es impl :
  (∀ sts val impl', done (complete sts val impl').1 = done impl') →
  done (calls es impl).1 = done impl.
Proof.
  intros Hkeeps. revert impl. induction es as [|e es IH]; intros impl; [done |].
  cbn [calls]. rewrite call_impl_complete. unfold impl_complete.
  pose proof (Hkeeps (status_of e) (payload_of e) impl) as Hd.
  destruct (complete (status_of e) (payload_of e) impl) as [impl1 ds].
  cbn [fst] in Hd. specialize (IH impl1).
  destruct (calls es impl1) as [impl2 t2]. cbn [fst] in *. congruence.
Qed.

(** X14: the deleter goes by the completed flag alone.  If the
    implementation's [complete] sets the flag, the deleter of an operation
    that was completed at least once only takes the lock and deletes; if
    the implementation's [complete] leaves the flag alone, the deleter of
    a pending operation sends "Implicit Cancel" however often [complete]
    was called before. *)
Theorem cleanup_follows_done_flag es impl :
  ((∀ sts val impl', done (complete sts val impl').1 = true) →
   es ≠ [] →
   Cleanup (calls es impl).1 = [Lock_impl; Unlock_impl; Delete])
  ∧ ((∀ sts val impl', done (complete sts val impl').1 = done impl') →
     done impl = false →
     completions (Cleanup (calls es impl).1)
     = [(Status_error "Implicit Cancel", None)]).
Proof.
  split.
  - intros Hsets Hne. unfold Cleanup. by rewrite calls_done.
  - intros Hkeeps Hpending. unfold Cleanup.
    rewrite calls_pending, Hpending by done. cbn [negb].
    rewrite !completions_app. cbn [completions omap list_omap app].
    rewrite completions_impl_complete. done.
Qed.

End OperationMore.
(** ** Channels of a shared record: one thread *)

Section ChannelFacts.

Import SharedState.

Context {Structure PVStructure BitSet : Type}.

Implicit Types (pv : SharedPV Structure PVStructure BitSet).
Implicit Types (this requester ret h : addr).
Implicit Types (subField : string).
Implicit Types (pvRequest : shared_pointer PVStructure).
Implicit Types (k : prog Structure PVStructure BitSet).
Implicit Types (es : list (Event Structure PVStructure BitSet)).

Local Abbreviation disciplined := (@disciplined Structure PVStructure BitSet).

Lemma empty_true (l : list addr) : empty l = true ↔ l = [].
Proof. unfold empty. apply bool_decide_eq_true. Qed.

Lemma push_back_not_empty (x : addr) (l : list addr) : empty (push_back x l) = false.
Proof. unfold empty, push_back. apply bool_decide_eq_false. by destruct l. Qed.

Lemma run_SharedChannel_ctor this pv :
  run (SharedChannel_ctor this) pv
  = (Some void, set_channels (push_back this) pv,
     Acquire :: Release ::
     match channels pv, handler pv with
     | [], Some h => [Ev (onFirstConnect h)]
     | _, _ => []
     end).
Proof.
  unfold SharedChannel_ctor. cbn [run].
  destruct (channels pv) as [|c cs] eqn:Hc; cbn.
  - by destruct (handler pv).
  - done.
Qed.

Lemma run_SharedChannel_dtor this pv :
  run (SharedChannel_dtor this) pv
  = (Some void, set_channels (remove this) pv,
     if empty (remove this (channels pv))
     then Acquire :: Acquire :: Release :: Release ::
          match handler pv with
          | Some h => [Ev (onLastDisconnect h)]
          | None => []
          end
     else [Acquire; Release]).
Proof.
  unfold SharedChannel_dtor. cbn [run].
  change (channels (set_channels (remove this) pv)) with (remove this (channels pv)).
  destruct (empty (remove this (channels pv))); cbn.
  - by destruct (handler pv).
  - done.
Qed.

Lemma run_getField requester subField pv :
  run (getField requester subField) pv
  = match type pv with
    | Some d => (Some void, pv, [Acquire; Release; Ev (getDone requester Status_default d)])
    | None => (Some void, set_getfields (push_back requester) pv, [Acquire; Release])
    end.
Proof.
  unfold getField. cbn. destruct (type pv) eqn:Ht; cbn; by rewrite ?Ht.
Qed.


Lemma run_createChannelPut requester pvRequest ret pv :
  run (createChannelPut requester pvRequest ret) pv
  = (Some (object ret), set_puts (push_back ret) pv,
     Acquire :: Release ::
     match type pv with
     | Some t => [Ev (channelPutConnect requester Status_default ret t)]
     | None => []
     end).
Proof. unfold createChannelPut. cbn. by destruct (type pv). Qed.

Lemma run_createChannelRPC requester pvRequest ret pv :
  run (createChannelRPC requester pvRequest ret) pv
  = (Some (object ret), set_rpcs (push_back ret) pv,
     Acquire :: Release ::
     match type pv with
     | Some _ => [Ev (channelRPCConnect requester Status_default ret)]
     | None => []
     end).
Proof. unfold createChannelRPC. cbn. by destruct (type pv). Qed.

Lemma run_createMonitor requester pvRequest ret pv :
  run (createMonitor requester pvRequest ret) pv
  = match type pv, current pv with
    | Some t, Some value =>
        (Some (object ret), set_monitors (push_back ret) pv,
         [Acquire; Ev (MonitorFIFO_open ret (Some t));
          Ev (MonitorFIFO_post ret value (valid pv)); Release;
          Ev (MonitorFIFO_notify ret)])
    | Some t, None =>
        (None, set_monitors (push_back ret) pv,
         [Acquire; Ev (MonitorFIFO_open ret (Some t))])
    | None, _ =>
        (Some (object ret), set_monitors (push_back ret) pv, [Acquire; Release])
    end.
Proof.
  unfold createMonitor. cbn.
  destruct (type pv) eqn:Ht; cbn; rewrite ?Ht; [|done]. by destruct (current pv).
Qed.

(** Each body keeps the locking discipline. *)
Lemma SharedChannel_ctor_disciplined this : disciplined 0 (SharedChannel_ctor this).
Proof.
  cbn. split; [lia |]. intros [|]; cbn.
  - split; [lia |]. intros [h|]; cbn; repeat split; lia.
  - repeat split; lia.
Qed.

Lemma SharedChannel_dtor_disciplined this : disciplined 0 (SharedChannel_dtor this).
Proof.
  cbn. split; [lia |]. split; [lia |]. intros [|]; cbn.
  - split; [lia |]. intros [h|]; cbn; repeat split; lia.
  - done.
Qed.

Lemma getField_disciplined requester subField : disciplined 0 (getField requester subField).
Proof.
  cbn. split; [lia |]. intros [|]; cbn.
  - split; [lia |]. intros [d|]; cbn; repeat split; lia.
  - repeat split; lia.
Qed.

Lemma createChannelPut_disciplined requester pvRequest ret :
  disciplined 0 (createChannelPut requester pvRequest ret).
Proof.
  cbn. split; [lia |]. split; [lia |]. intros [t|]; cbn; repeat split; lia.
Qed.

Lemma createChannelRPC_disciplined requester pvRequest ret :
  disciplined 0 (createChannelRPC requester pvRequest ret).
Proof.
  cbn. split; [lia |]. split; [lia |]. intros [|]; cbn; repeat split; lia.
Qed.

Lemma createMonitor_disciplined requester pvRequest ret : disciplined 0 (createMonitor requester pvRequest ret).
Proof.
  cbn. split; [lia |]. split; [lia |]. intros [|]; cbn.
  - split; [lia |]. intros t. split; [lia |]. split; [lia |].
    intros [value|]; cbn; [|done].
    split; [lia |]. intros vld. repeat split; lia.
  - done.
Qed.


Lemma events_Ev es : events (Ev <$> es) = es.
Proof. induction es as [|e es IH]; [done |]. cbn. unfold events in IH. by rewrite IH. Qed.

Lemma events_app (t1 t2 : list (Obs Structure PVStructure BitSet)) :
  events (t1 ++ t2) = events t1 ++ events t2.
Proof. apply omap_app. Qed.





Lemma callbacks_Ev es : (∀ e, e ∈ es → is_callback e = true) →
  callbacks (Ev <$> es) = es.
Proof.
  intros Hcb. unfold callbacks. rewrite events_Ev.
  induction es as [|e es IH]; [done |].
  rewrite filter_cons_True by (apply Hcb; left).
  f_equal. apply IH. intros e' He'. apply Hcb. by right.
Qed.






Lemma MonitorFIFO_posts mon (q : MonitorFIFO Structure PVStructure BitSet)
    (later : list (PVStructure * BitSet)) :
  is_Some (opened q) →
  foldl (MonitorFIFO_apply mon) q (posted mon <$> later)
  = {| opened := opened q; queue := queue q ++ later |}.
Proof.
  revert q. induction later as [|u later IH]; intros q [t Ht].
  - cbn. rewrite app_nil_r. by destruct q.
  - cbn [fmap list_fmap foldl]. unfold posted at 1. cbn [MonitorFIFO_apply].
    rewrite decide_True by done. rewrite Ht.
    change (list_fmap _ _ (posted mon) later) with (posted mon <$> later).
    rewrite IH by (cbn; by eexists). cbn. rewrite <-app_assoc. by destruct u.
Qed.

End ChannelFacts.

(** ** Channels of a shared record: several threads *)

Section MutualExclusion.

Import SharedState.

Context {Structure PVStructure BitSet : Type}.

Implicit Types (c : config Structure PVStructure BitSet).
Implicit Types (p k : prog Structure PVStructure BitSet).

Lemma exclusion_start pv (ps : list (prog Structure PVStructure BitSet)) :
  Forall (disciplined 0) ps → exclusion (start pv ps).
Proof.
  intros Hps. split; [done |]. intros i p Hi. cbn in *.
  by eapply Forall_lookup_1.
Qed.

Lemma exclusion_step i c c' : exclusion c → step i c = Some c' → exclusion c'.
Proof.
  intros [Hpos Hall] Hstep. unfold step in Hstep.
  destruct (threads c !! i) as [p|] eqn:Hi; [|done].
  pose proof (Hall i p Hi) as Hp.
  pose proof (lookup_lt_Some _ _ _ Hi) as Hlt.
  destruct p as [r| |k|k|X f k|f k|e k]; try done; cbn in Hp.
  - (* Lock *)
    destruct (mutex c) as [[j d]|] eqn:Hm; cbn in Hp.
    + destruct (decide (j = i)) as [->|Hne]; [|done].
      injection Hstep as <-. split; cbn.
      * intros ? ? [= <- <-]. rewrite length_insert. lia.
      * intros j q Hj. apply list_lookup_insert_Some in Hj as [(<- & <- & _)|[Hne Hj]].
        -- by rewrite decide_True.
        -- rewrite decide_False by done.
           specialize (Hall j q Hj). cbn in Hall. by rewrite decide_False in Hall.
    + injection Hstep as <-. split; cbn.
      * intros ? ? [= <- <-]. rewrite length_insert. lia.
      * intros j q Hj. apply list_lookup_insert_Some in Hj as [(<- & <- & _)|[Hne Hj]].
        -- by rewrite decide_True.
        -- rewrite decide_False by done. exact (Hall j q Hj).
  - (* Unlock *)
    destruct (mutex c) as [[j [|d]]|] eqn:Hm; try done.
    destruct (decide (j = i)) as [->|Hne]; [|done].
    cbn in Hp. rewrite decide_True in Hp by done.
    injection Hstep as <-. split; cbn.
    + intros j' d'. destruct d as [|d]; [done |]. intros [= <- <-].
      rewrite length_insert. lia.
    + intros j q Hj. apply list_lookup_insert_Some in Hj as [(<- & <- & _)|[Hne Hj]].
      * destruct d as [|d]; cbn; [done |]. by rewrite decide_True.
      * specialize (Hall j q Hj). cbn in Hall. rewrite decide_False in Hall by done.
        destruct d as [|d]; cbn; [done |]. by rewrite decide_False.
  - (* Read *)
    injection Hstep as <-. split; cbn; [by setoid_rewrite length_insert |].
    intros j q Hj. apply list_lookup_insert_Some in Hj as [(<- & <- & _)|[Hne Hj]].
    + apply Hp.
    + exact (Hall j q Hj).
  - (* Write *)
    injection Hstep as <-. split; cbn; [by setoid_rewrite length_insert |].
    intros j q Hj. apply list_lookup_insert_Some in Hj as [(<- & <- & _)|[Hne Hj]].
    + apply Hp.
    + exact (Hall j q Hj).
  - (* Emit *)
    injection Hstep as <-. split; cbn; [by setoid_rewrite length_insert |].
    intros j q Hj. apply list_lookup_insert_Some in Hj as [(<- & <- & _)|[Hne Hj]].
    + apply Hp.
    + exact (Hall j q Hj).
Qed.

Lemma exclusion_exec sched c c' : exclusion c → exec sched c = Some c' → exclusion c'.
Proof.
  revert c. induction sched as [|i sched IH]; intros c Hc Hexec; cbn in Hexec.
  - by injection Hexec as <-.
  - destruct (step i c) as [c1|] eqn:Hstep; [|done].
    eapply IH; [|done]. by eapply exclusion_step.
Qed.



End MutualExclusion.
Section ConcurrentOpens.

Import SharedState.

Context {Structure PVStructure BitSet : Type}.

Implicit Types (c : config Structure PVStructure BitSet).
Implicit Types (this hd : addr).
Implicit Types (pv : SharedPV Structure PVStructure BitSet).
Implicit Types (phs : list (addr * phase)).
Implicit Types (cbs : list (Event Structure PVStructure BitSet)).

Local Abbreviation ctor_at := (@ctor_at Structure PVStructure BitSet).
Local Abbreviation code := (@code Structure PVStructure BitSet).
Local Abbreviation disciplined := (@disciplined Structure PVStructure BitSet).

Lemma ctor_at_Idle this : ctor_at this Idle = SharedChannel_ctor this.
Proof. reflexivity. Qed.

Lemma critical_code this ph : in_critical_section (ctor_at this ph) = critical ph.
Proof. by destruct ph. Qed.

Lemma returned_code this ph : returned (ctor_at this ph) = true ↔ ph = Finished.
Proof. by destruct ph. Qed.

Lemma callbacks_app (t1 t2 : list (Obs Structure PVStructure BitSet)) :
  callbacks (t1 ++ t2) = callbacks t1 ++ callbacks t2.
Proof. unfold callbacks, events. by rewrite omap_app, filter_app. Qed.

(** The depth at which the discipline lets a thread be at each point. *)
Lemma ctor_depth this ph d :
  disciplined d (ctor_at this ph) → d = if critical ph then 1 else 0.
Proof.
  destruct ph as [| | |h|h|h|]; cbn.
  - intros [_ H]. specialize (H false). cbn in H. destruct H as (_ & H). lia.
  - intros [_ H]. specialize (H false). cbn in H. destruct H as (_ & H).
    destruct d as [|[|d]]; cbn in H; [done | done | lia].
  - intros [_ H]. specialize (H None). cbn in H. destruct H as (_ & H).
    destruct d as [|[|d]]; cbn in H; [done | done | lia].
  - intros [_ H]. destruct d as [|[|d]]; [done | done |].
    destruct h; cbn in H; [destruct H as [H _] |]; lia.
  - destruct d as [|[|d]]; [done | done |].
    destruct h; cbn; [intros [H _] | intros H]; lia.
  - intros [H _]. done.
  - done.
Qed.

Ltac updated :=
  let j := fresh "j" in let y := fresh "y" in let Hj := fresh "Hj" in
  intros j y Hj;
  apply list_lookup_insert_Some in Hj as [(<- & <- & _)|[? Hj]];
  [cbn; try done | eauto].

Ltac updated_but :=
  let j := fresh "j" in let y := fresh "y" in let Hj := fresh "Hj" in
  let Hne := fresh "Hne" in
  intros j y Hne Hj;
  apply list_lookup_insert_Some in Hj as [(<- & <- & _)|[? Hj]];
  [cbn; try done | eauto].

Lemma stage_lock hd phs cbs chs i this :
  phs !! i = Some (this, Idle) →
  stage hd phs cbs chs → stage hd (<[i:=(this, Locked)]> phs) cbs chs.
Proof.
  intros Hi [(? & ? & Hall)|[(? & i0 & x & Hi0 & Htok & Hch & Hoth)|(? & ? & Hall)]].
  - left. split_and!; [done.. |]. updated.
  - right; left. split; [done |].
    assert (i0 ≠ i) by (intros ->; rewrite Hi in Hi0; by injection Hi0 as <-).
    exists i0, x. split_and!; [by rewrite list_lookup_insert_ne | done | done |].
    updated_but.
  - right; right. split_and!; [done.. |]. updated.
Qed.

Lemma stage_check hd phs cbs chs i this :
  phs !! i = Some (this, Locked) → alone phs i →
  stage hd phs cbs chs →
  stage hd (<[i:=(this, if empty chs then Capturing else Pushing None)]> phs) cbs chs.
Proof.
  intros Hi Halone [(? & -> & Hall)|[(? & i0 & x & Hi0 & Htok & Hch & Hoth)|(? & Hne & Hall)]].
  - left. split_and!; [done.. |]. updated.
  - right; left. split; [done |].
    assert (i0 ≠ i) by (intros ->; rewrite Hi in Hi0; by injection Hi0 as <-).
    assert (chs ≠ []) as Hne.
    { rewrite Hch. intros Hp. specialize (Halone i0 x ltac:(done) Hi0).
      by destruct x as [? []]. }
    exists i0, x. split_and!; [by rewrite list_lookup_insert_ne | done | done |].
    updated_but. unfold empty. by rewrite bool_decide_eq_false_2.
  - right; right. split_and!; [done.. |]. updated.
    unfold empty. by rewrite bool_decide_eq_false_2.
Qed.

Lemma stage_capture hd phs cbs chs i this :
  phs !! i = Some (this, Capturing) → alone phs i →
  stage hd phs cbs chs →
  stage hd (<[i:=(this, Pushing (Some hd))]> phs) cbs chs.
Proof.
  intros Hi Halone [(? & -> & Hall)|[(? & i0 & x & Hi0 & Htok & Hch & Hoth)|(? & Hne & Hall)]].
  - right; left. split; [done |].
    exists i, (this, Pushing (Some hd)).
    split_and!; [apply list_lookup_insert_eq; by eapply lookup_lt_Some | done | done |].
    updated_but.
    specialize (Hall _ _ Hj). specialize (Halone _ _ ltac:(done) Hj).
    by destruct y as [? []].
  - assert (i0 ≠ i) by (intros ->; rewrite Hi in Hi0; by injection Hi0 as <-).
    by specialize (Hoth i _ ltac:(done) Hi).
  - by specialize (Hall i _ Hi).
Qed.

Lemma stage_push hd phs cbs chs i this h :
  phs !! i = Some (this, Pushing h) → alone phs i →
  stage hd phs cbs chs →
  stage hd (<[i:=(this, Unlocking h)]> phs) cbs (push_back this chs).
Proof.
  assert (push_back this chs ≠ []) as Hpush by (unfold push_back; by destruct chs).
  intros Hi Halone [(? & -> & Hall)|[(? & i0 & x & Hi0 & Htok & Hch & Hoth)|(? & Hne & Hall)]].
  - by specialize (Hall i _ Hi).
  - right; left. split; [done |].
    destruct (decide (i0 = i)) as [->|Hne].
    + rewrite Hi in Hi0. injection Hi0 as <-.
      exists i, (this, Unlocking h).
      split_and!; [apply list_lookup_insert_eq; by eapply lookup_lt_Some | by destruct h | done |].
      updated_but.
    + exists i0, x. split_and!; [by rewrite list_lookup_insert_ne | done | |].
      * specialize (Halone i0 x Hne Hi0). split; [done |]. by destruct x as [? []].
      * updated_but. specialize (Hoth i _ ltac:(done) Hi). by destruct h.
  - right; right. split_and!; [done.. |]. updated.
    specialize (Hall i _ Hi). by destruct h.
Qed.

Lemma stage_unlock hd phs cbs chs i this h :
  phs !! i = Some (this, Unlocking h) →
  stage hd phs cbs chs →
  stage hd (<[i:=(this, match h with Some h => Notifying h | None => Finished end)]> phs)
    cbs chs.
Proof.
  intros Hi [(? & -> & Hall)|[(? & i0 & x & Hi0 & Htok & Hch & Hoth)|(? & Hne & Hall)]].
  - by specialize (Hall i _ Hi).
  - right; left. split; [done |].
    destruct (decide (i0 = i)) as [->|Hne].
    + rewrite Hi in Hi0. injection Hi0 as <-. destruct h as [h|]; [|done].
      exists i, (this, Notifying h).
      split_and!; [apply list_lookup_insert_eq; by eapply lookup_lt_Some | done | done |].
      updated_but.
    + exists i0, x. split_and!; [by rewrite list_lookup_insert_ne | done | done |].
      updated_but. specialize (Hoth i _ ltac:(done) Hi). by destruct h.
  - right; right. split_and!; [done.. |]. updated.
    specialize (Hall i _ Hi). by destruct h.
Qed.

Lemma stage_notify hd phs cbs chs i this h :
  phs !! i = Some (this, Notifying h) →
  stage hd phs cbs chs →
  stage hd (<[i:=(this, Finished)]> phs) (cbs ++ [onFirstConnect h]) chs.
Proof.
  intros Hi [(? & -> & Hall)|[(-> & i0 & x & Hi0 & Htok & Hch & Hoth)|(? & Hne & Hall)]].
  - by specialize (Hall i _ Hi).
  - destruct (decide (i0 = i)) as [->|Hne].
    + rewrite Hi in Hi0. injection Hi0 as <-. cbn in Htok, Hch. subst h.
      right; right. split_and!; [done | by intros ?%Hch |].
      intros j y Hj.
      apply list_lookup_insert_Some in Hj as [(<- & <- & _)|[? Hj]]; [done | eauto].
    + by specialize (Hoth i _ ltac:(done) Hi).
  - by specialize (Hall i _ Hi).
Qed.

Lemma holder_depth hd phs c i x :
  opening hd phs c → phs !! i = Some x →
  depth_of i (mutex c) = if critical x.2 then 1 else 0.
Proof.
  intros (_ & Hth & [_ Hall] & _) Hi.
  eapply ctor_depth, Hall. rewrite Hth, list_lookup_fmap, Hi. reflexivity.
Qed.

Lemma critical_mutex hd phs c i x :
  opening hd phs c → phs !! i = Some x → critical x.2 = true →
  mutex c = Some (i, 1).
Proof.
  intros Hop Hi Hcr. pose proof (holder_depth _ _ _ _ _ Hop Hi) as Hd.
  rewrite Hcr in Hd. unfold depth_of in Hd.
  destruct (mutex c) as [[j d]|]; [|done].
  destruct (decide (j = i)) as [->|]; [by subst | done].
Qed.

Lemma idle_mutex hd phs c i x d :
  opening hd phs c → phs !! i = Some x → critical x.2 = false →
  mutex c ≠ Some (i, S d).
Proof.
  intros Hop Hi Hcr Hm. pose proof (holder_depth _ _ _ _ _ Hop Hi) as Hd.
  rewrite Hcr, Hm in Hd. cbn in Hd. by rewrite decide_True in Hd.
Qed.

Lemma critical_alone hd phs c i x :
  opening hd phs c → phs !! i = Some x → critical x.2 = true → alone phs i.
Proof.
  intros Hop Hi Hcr j y Hne Hj.
  destruct (critical y.2) eqn:Hy; [|done].
  pose proof (critical_mutex _ _ _ _ _ Hop Hi Hcr) as Hm.
  pose proof (critical_mutex _ _ _ _ _ Hop Hj Hy) as Hm'.
  congruence.
Qed.

Lemma opening_step hd phs c i c' :
  opening hd phs c → step i c = Some c' →
  ∃ x ph', phs !! i = Some x ∧ rank ph' < rank x.2
           ∧ opening hd (<[i := (x.1, ph')]> phs) c'.
Proof.
  intros Hop Hstep.
  pose proof Hop as (Hh & Hth & Hex & Hst).
  pose proof (exclusion_step _ _ _ Hex Hstep) as Hex'.
  unfold step in Hstep. rewrite Hth, list_lookup_fmap in Hstep.
  destruct (phs !! i) as [[this ph]|] eqn:Hi; [|done].
  pose proof (critical_mutex _ _ _ _ _ Hop Hi) as Hcrit.
  pose proof (critical_alone _ _ _ _ _ Hop Hi) as Halone.
  exists (this, ph).
  destruct ph as [| | |h|h|h|]; cbn in Hstep, Hcrit, Halone.
  - exists Locked. split; [done |]. split; [cbn; lia |].
    assert (c' = {| shared := shared c; mutex := Some (i, 1);
                    trace := trace c ++ [Acquire];
                    threads := <[i:=ctor_check this]> (code <$> phs) |}) as ->.
    { destruct (mutex c) as [[j d]|] eqn:Hm; [|by injection Hstep as <-].
      destruct (decide (j = i)) as [->|]; [|done].
      destruct Hex as [Hpos _]. destruct (Hpos _ _ Hm) as [Hd _].
      destruct d as [|d]; [lia |].
      by destruct (idle_mutex _ _ _ _ _ d Hop Hi eq_refl). }
    split_and!; cbn [shared mutex trace threads]; [done | by rewrite list_fmap_insert | done |].
    rewrite callbacks_app, app_nil_r. by apply stage_lock.
  - injection Hstep as <-.
    exists (if empty (channels (shared c)) then Capturing else Pushing None).
    split; [done |]. split; [cbn; destruct (empty _); cbn; lia |].
    split_and!; cbn [shared mutex trace threads]; [done | | done | by apply stage_check; auto].
    rewrite list_fmap_insert. by destruct (empty _).
  - injection Hstep as <-.
    exists (Pushing (Some hd)).
    split; [done |]. split; [cbn; lia |].
    split_and!; cbn [shared mutex trace threads]; [done | | done | by apply stage_capture; auto].
    by rewrite list_fmap_insert, Hh.
  - injection Hstep as <-.
    exists (Unlocking h).
    split; [done |]. split; [cbn; lia |].
    split_and!; cbn [shared mutex trace threads]; [done | by rewrite list_fmap_insert | done |].
    by apply stage_push; auto.
  - rewrite (Hcrit eq_refl) in Hstep. rewrite decide_True in Hstep by done.
    injection Hstep as <-.
    exists (match h with Some h => Notifying h | None => Finished end).
    split; [done |]. split; [cbn; destruct h; cbn; lia |].
    split_and!; cbn [shared mutex trace threads]; [done | | done |].
    + rewrite list_fmap_insert. by destruct h.
    + rewrite callbacks_app, app_nil_r. by apply stage_unlock.
  - injection Hstep as <-.
    exists Finished.
    split; [done |]. split; [cbn; lia |].
    split_and!; cbn [shared mutex trace threads]; [done | by rewrite list_fmap_insert | done |].
    rewrite callbacks_app. by apply stage_notify.
  - done.
Qed.

Lemma opening_exec hd sched phs c c' :
  opening hd phs c → exec sched c = Some c' →
  ∃ phs', length phs' = length phs ∧ opening hd phs' c'.
Proof.
  revert phs c. induction sched as [|i sched IH]; intros phs c Hop Hexec; cbn in Hexec.
  - injection Hexec as <-. by exists phs.
  - destruct (step i c) as [c1|] eqn:Hstep; [|done].
    destruct (opening_step _ _ _ _ _ Hop Hstep) as (x & ph' & _ & _ & Hop1).
    destruct (IH _ _ Hop1 Hexec) as (phs' & Hlen & Hop').
    exists phs'. by rewrite Hlen, length_insert.
Qed.

Lemma opening_start hd (cs : list addr) (pv : SharedPV Structure PVStructure BitSet) :
  channels pv = [] → handler pv = Some hd →
  opening hd ((λ this, (this, Idle)) <$> cs) (start pv (SharedChannel_ctor <$> cs)).
Proof.
  intros Hch Hh. split_and!; cbn [shared mutex trace threads start].
  - done.
  - rewrite <-list_fmap_compose. by apply list_fmap_ext.
  - apply exclusion_start, Forall_fmap, Forall_true. intros this.
    apply SharedChannel_ctor_disciplined.
  - left. split_and!; [done.. |]. intros j y Hj.
    rewrite list_lookup_fmap in Hj. by destruct (cs !! j); simplify_eq/=.
Qed.

Lemma opening_returned hd phs c :
  opening hd phs c → all_returned c = true → ∀ j y, phs !! j = Some y → y.2 = Finished.
Proof.
  intros (_ & Hth & _) Hall j y Hj. unfold all_returned in Hall.
  rewrite Hth in Hall. apply Is_true_true, forallb_True in Hall.
  rewrite Forall_fmap in Hall. eapply Forall_lookup_1 in Hall; [|done].
  cbn in Hall. apply Is_true_true in Hall. by apply returned_code in Hall.
Qed.

Lemma opening_called_once hd phs c :
  opening hd phs c → length (callbacks (trace c)) ≤ 1.
Proof.
  intros (_ & _ & _ & [(-> & _)|[(-> & _)|(-> & _)]]); cbn; lia.
Qed.

Lemma opening_finished hd phs c :
  opening hd phs c → phs ≠ [] → all_returned c = true →
  callbacks (trace c) = [onFirstConnect hd].
Proof.
  intros Hop Hne Hall.
  pose proof (opening_returned _ _ _ Hop Hall) as Hfin.
  destruct Hop as (_ & _ & _ & [(_ & _ & Hpre)|[(_ & i & x & Hi & Htok & _)|(? & _)]]).
  - destruct phs as [|y phs]; [done |].
    specialize (Hpre 0 y eq_refl). rewrite (Hfin 0 y eq_refl) in Hpre. done.
  - rewrite (Hfin i x Hi) in Htok. done.
  - done.
Qed.

(** No deadlock: as long as a constructor has not returned, some thread
    can take a step. *)
Lemma opening_progress hd phs c :
  opening hd phs c → all_returned c = false → ∃ i c', step i c = Some c'.
Proof.
  intros Hop Hall. pose proof Hop as (Hh & Hth & Hex & _).
  destruct (mutex c) as [[i d]|] eqn:Hm.
  - destruct Hex as [Hpos _]. destruct (Hpos _ _ Hm) as [Hd Hlt].
    rewrite Hth, length_fmap in Hlt.
    destruct (lookup_lt_is_Some_2 _ _ Hlt) as [[this ph] Hi].
    pose proof (holder_depth _ _ _ _ _ Hop Hi) as Hdepth.
    rewrite Hm in Hdepth. cbn in Hdepth. rewrite decide_True in Hdepth by done.
    exists i. unfold step. rewrite Hth, list_lookup_fmap, Hi, Hm. cbn.
    destruct ph; cbn in Hdepth |- *; try lia; subst d;
      rewrite ?decide_True by done; eexists; reflexivity.
  - assert (∃ j x, phs !! j = Some x ∧ x.2 ≠ Finished) as (j & [this ph] & Hj & Hnf).
    { unfold all_returned in Hall. rewrite Hth in Hall.
      apply not_true_iff_false in Hall. rewrite <-Is_true_true, forallb_True in Hall.
      apply not_Forall_Exists in Hall; [|apply _].
      apply Exists_exists in Hall as (p & Hin & Hp).
      apply list_elem_of_fmap in Hin as (x & -> & Hin).
      apply list_elem_of_lookup in Hin as [j Hj].
      exists j, x. split; [done |]. intros Hfin. apply Hp.
      unfold code. rewrite Hfin. done. }
    pose proof (holder_depth _ _ _ _ _ Hop Hj) as Hdepth.
    rewrite Hm in Hdepth. cbn in Hdepth.
    exists j. unfold step. rewrite Hth, list_lookup_fmap, Hj, Hm. cbn.
    destruct ph; cbn in Hdepth, Hnf |- *; try done; eexists; reflexivity.
Qed.

Lemma work_insert phs i x y :
  phs !! i = Some x → work (<[i:=y]> phs) + rank x.2 = work phs + rank y.2.
Proof.
  revert i. induction phs as [|z phs IH]; intros [|i] Hi; try done.
  - cbn in Hi. injection Hi as ->.
    change (<[0:=y]> (x :: phs)) with (y :: phs). cbn [work]. lia.
  - cbn in Hi. specialize (IH i Hi).
    change (<[S i:=y]> (z :: phs)) with (z :: <[i:=y]> phs). cbn [work]. lia.
Qed.

(** Every interleaving can be run to the end. *)
Lemma opening_completes hd phs c :
  opening hd phs c → ∃ sched c', exec sched c = Some c' ∧ all_returned c' = true.
Proof.
  remember (work phs) as n eqn:Hn. revert phs c Hn.
  induction (lt_wf n) as [n _ IH]. intros phs c -> Hop.
  destruct (all_returned c) eqn:Hall.
  - by exists [], c.
  - destruct (opening_progress _ _ _ Hop Hall) as (i & c1 & Hstep).
    destruct (opening_step _ _ _ _ _ Hop Hstep) as (x & ph' & Hi & Hrank & Hop1).
    pose proof (work_insert phs i x (x.1, ph') Hi) as Hwork. cbn in Hwork.
    destruct (IH (work (<[i:=(x.1, ph')]> phs)) ltac:(lia) _ _ eq_refl Hop1)
      as (sched & c' & Hexec & Hret).
    exists (i :: sched), c'. cbn. by rewrite Hstep.
Qed.
Lemma callbacks_ctor_log hd (b : bool) :
  callbacks (Acquire :: Release ::
             (if b then [Ev (onFirstConnect hd)] else []))
  = if b then [@onFirstConnect Structure PVStructure BitSet hd] else [].
Proof. by destruct b. Qed.

Lemma joined_insert_same phs i x y :
  phs !! i = Some x → y.1 = x.1 → appended y.2 = appended x.2 →
  joined (<[i:=y]> phs) = joined phs.
Proof.
  revert i. induction phs as [|z phs IH]; intros [|i] Hi Hfst Happ; try done.
  - cbn in Hi. injection Hi as ->.
    change (<[0:=y]> (x :: phs)) with (y :: phs). cbn [joined]. by rewrite Hfst, Happ.
  - cbn in Hi. change (<[S i:=y]> (z :: phs)) with (z :: <[i:=y]> phs).
    cbn [joined]. by rewrite (IH i Hi Hfst Happ).
Qed.

Lemma joined_insert_push phs i x y :
  phs !! i = Some x → appended x.2 = false → appended y.2 = true →
  joined (<[i:=y]> phs) ≡ₚ joined phs ++ [y.1].
Proof.
  revert i. induction phs as [|z phs IH]; intros [|i] Hi Hx Hy; try done.
  - cbn in Hi. injection Hi as ->.
    change (<[0:=y]> (x :: phs)) with (y :: phs). cbn [joined]. rewrite Hx, Hy.
    apply Permutation_cons_append.
  - cbn in Hi. change (<[S i:=y]> (z :: phs)) with (z :: <[i:=y]> phs).
    cbn [joined]. destruct (appended z.2); [|by apply IH].
    rewrite (IH i Hi Hx Hy). done.
Qed.

Lemma joined_finished phs :
  (∀ j y, phs !! j = Some y → y.2 = Finished) → joined phs = phs.*1.
Proof.
  induction phs as [|x phs IH]; intros Hfin; [done |].
  cbn [joined fmap list_fmap]. rewrite (Hfin 0 x eq_refl). cbn [appended].
  f_equal. apply IH. intros j y Hj. by apply (Hfin (S j)).
Qed.

Ltac joining_same Hth Hcs Hch Hi :=
  split_and!; cbn [shared threads];
  [ rewrite list_fmap_insert; reflexivity
  | rewrite list_fmap_insert; cbn [fst]; rewrite list_insert_id;
    [exact Hcs | rewrite list_lookup_fmap, Hi; reflexivity]
  | rewrite (joined_insert_same _ _ _ _ Hi) by reflexivity; exact Hch ].

Lemma joining_step init (cs : list addr) phs c i c' :
  joining init cs phs c → step i c = Some c' →
  ∃ x ph', phs !! i = Some x ∧ joining init cs (<[i := (x.1, ph')]> phs) c'.
Proof.
  intros (Hth & Hcs & Hch) Hstep.
  unfold step in Hstep. rewrite Hth, list_lookup_fmap in Hstep.
  destruct (phs !! i) as [[this ph]|] eqn:Hi; [|done].
  exists (this, ph). cbn [fst].
  destruct ph as [| | |h|h|h|]; cbn in Hstep.
  - exists Locked. split; [done |].
    destruct (mutex c) as [[j d]|];
      [destruct (decide (j = i)); [|done] |];
      injection Hstep as <-; joining_same Hth Hcs Hch Hi.
  - injection Hstep as <-.
    exists (if empty (channels (shared c)) then Capturing else Pushing None).
    split; [done |]. split_and!; cbn [shared threads].
    + rewrite list_fmap_insert. by destruct (empty _).
    + rewrite list_fmap_insert. cbn [fst]. rewrite list_insert_id; [exact Hcs |].
      by rewrite list_lookup_fmap, Hi.
    + rewrite (joined_insert_same _ _ _ _ Hi); [exact Hch | done | by destruct (empty _)].
  - injection Hstep as <-. exists (Pushing (handler (shared c))). split; [done |].
    joining_same Hth Hcs Hch Hi.
  - injection Hstep as <-. exists (Unlocking h). split; [done |].
    split_and!; cbn [shared threads].
    + rewrite list_fmap_insert. reflexivity.
    + rewrite list_fmap_insert. cbn [fst]. rewrite list_insert_id; [exact Hcs |].
      by rewrite list_lookup_fmap, Hi.
    + cbn [channels set_channels]. unfold push_back.
      rewrite (joined_insert_push _ _ _ _ Hi) by reflexivity.
      cbn [fst]. by rewrite Hch, app_assoc.
  - exists (match h with Some h => Notifying h | None => Finished end).
    split; [done |].
    destruct (mutex c) as [[j [|d]]|]; [done | | done].
    destruct (decide (j = i)); [|done]. injection Hstep as <-.
    split_and!; cbn [shared threads].
    + rewrite list_fmap_insert. by destruct h.
    + rewrite list_fmap_insert. cbn [fst]. rewrite list_insert_id; [exact Hcs |].
      by rewrite list_lookup_fmap, Hi.
    + rewrite (joined_insert_same _ _ _ _ Hi); [exact Hch | done | by destruct h].
  - injection Hstep as <-. exists Finished. split; [done |].
    joining_same Hth Hcs Hch Hi.
  - done.
Qed.

Lemma joining_exec init (cs : list addr) sched phs c c' :
  joining init cs phs c → exec sched c = Some c' → ∃ phs', joining init cs phs' c'.
Proof.
  revert phs c. induction sched as [|i sched IH]; intros phs c Hj Hexec; cbn in Hexec.
  - injection Hexec as <-. by exists phs.
  - destruct (step i c) as [c1|] eqn:Hstep; [|done].
    destruct (joining_step _ _ _ _ _ _ Hj Hstep) as (x & ph' & _ & Hj1).
    by apply (IH _ _ Hj1 Hexec).
Qed.

Lemma joined_idle (cs : list addr) : joined ((λ this, (this, Idle)) <$> cs) = [].
Proof. induction cs as [|x cs IH]; [done | exact IH]. Qed.

(** Whatever the record and its handler: when constructors running at
    the same time have all returned, the list holds the channels it had
    and the new ones. *)
Lemma opened_all_attached (cs : list addr) pv sched c :
  exec sched (start pv (SharedChannel_ctor <$> cs)) = Some c →
  all_returned c = true →
  channels (shared c) ≡ₚ channels pv ++ cs.
Proof.
  intros Hexec Hall.
  assert (joining (channels pv) cs ((λ this, (this, Idle)) <$> cs)
            (start pv (SharedChannel_ctor <$> cs))) as Hstart.
  { split_and!; cbn [shared threads start].
    - rewrite <-list_fmap_compose. by apply list_fmap_ext.
    - rewrite <-list_fmap_compose. cbn. by rewrite list_fmap_id.
    - by rewrite joined_idle, app_nil_r. }
  destruct (joining_exec _ _ _ _ _ _ Hstart Hexec) as (phs & Hth & Hcs & Hch).
  rewrite Hch, joined_finished, Hcs; [done |].
  intros j y Hj. unfold all_returned in Hall.
  rewrite Hth in Hall. apply Is_true_true, forallb_True in Hall.
  rewrite Forall_fmap in Hall. eapply Forall_lookup_1 in Hall; [|done].
  cbn in Hall. apply Is_true_true in Hall. by apply returned_code in Hall.
Qed.

(** C2: the constructor appends the channel to the end of the record's
    list, whatever the record, with the lock held, changes nothing else
    and calls out only after releasing the lock: it calls [onFirstConnect]
    of the record's handler, once, if and only if the list was empty
    before the append, and nobody when the record has no handler.  When
    any number of channels are opened at the same time, then however
    their steps interleave the list holds all of them once the
    constructors have returned; on a record that has a handler and no
    channel [onFirstConnect] is never called twice, it has been called
    exactly once when all constructors have returned, and every
    interleaving can be continued until they all have. *)
Theorem first_connect_once this hd pv (cs : list addr) pv0 sched c :
  handler pv0 = Some hd → channels pv0 = [] → cs ≠ [] →
  exec sched (start pv0 (SharedChannel_ctor <$> cs)) = Some c →
  let post := (run (SharedChannel_ctor this) pv).1.2 in
  let log := (run (SharedChannel_ctor this) pv).2 in
  disciplined 0 (SharedChannel_ctor this)
  ∧ run (SharedChannel_ctor this) pv
    = (Some void, set_channels (push_back this) pv,
       Acquire :: Release ::
       match handler pv with
       | Some h => if empty (channels pv) then [Ev (onFirstConnect h)] else []
       | None => []
       end)
  ∧ channels post = channels pv ++ [this]
  ∧ (type post = type pv ∧ current post = current pv ∧ valid post = valid pv
     ∧ handler post = handler pv ∧ puts post = puts pv ∧ rpcs post = rpcs pv
     ∧ monitors post = monitors pv ∧ getfields post = getfields pv)
  ∧ (∀ h, handler pv = Some h →
       (callbacks log = [onFirstConnect h] ↔ channels pv = [])
       ∧ (callbacks log = [] ↔ channels pv ≠ []))
  ∧ (handler pv = None → callbacks log = [])
  ∧ (∀ pv1 sched1 c1,
       exec sched1 (start pv1 (SharedChannel_ctor <$> cs)) = Some c1 →
       all_returned c1 = true →
       channels (shared c1) ≡ₚ channels pv1 ++ cs)
  ∧ length (callbacks (trace c)) ≤ 1
  ∧ (all_returned c = true →
       callbacks (trace c) = [onFirstConnect hd] ∧ channels (shared c) ≡ₚ cs)
  ∧ (∃ sched' c', exec sched' c = Some c' ∧ all_returned c' = true
                  ∧ callbacks (trace c') = [onFirstConnect hd]).
Proof.
  intros Hh0 Hch0 Hcs Hexec post log. subst post log.
  assert (Hrun : run (SharedChannel_ctor this) pv
    = (Some void, set_channels (push_back this) pv,
       Acquire :: Release ::
       match handler pv with
       | Some h => if empty (channels pv) then [Ev (onFirstConnect h)] else []
       | None => []
       end)).
  { rewrite run_SharedChannel_ctor. by destruct (channels pv), (handler pv). }
  destruct (opening_exec hd sched _ _ _ (opening_start hd cs pv0 Hch0 Hh0) Hexec)
    as (phs & Hlen & Hop).
  assert (phs ≠ []) as Hphs.
  { intros ->. rewrite length_fmap in Hlen. by destruct cs. }
  split; [apply SharedChannel_ctor_disciplined |].
  split; [exact Hrun |].
  split; [by rewrite Hrun |].
  split; [by rewrite Hrun |].
  split.
  { intros h Hh. rewrite Hrun, Hh. cbn [snd]. rewrite callbacks_ctor_log. split.
    - rewrite <-empty_true. by destruct (empty (channels pv)).
    - rewrite <-(not_iff_compat (empty_true (channels pv))).
      by destruct (empty (channels pv)). }
  split; [intros Hnone; by rewrite Hrun, Hnone |].
  split; [intros pv1 sched1 c1; apply opened_all_attached |].
  split; [by eapply opening_called_once |].
  split.
  - intros Hret. split; [by eapply opening_finished |].
    rewrite (opened_all_attached cs pv0 sched c Hexec Hret), Hch0. done.
  - destruct (opening_completes _ _ _ Hop) as (sched' & c' & Hexec' & Hret).
    exists sched', c'. split_and!; [done.. |].
    destruct (opening_exec hd sched' _ _ _ Hop Hexec') as (phs' & Hlen' & Hop').
    eapply opening_finished; [done | | done].
    intros ->. destruct phs; [done | discriminate].
Qed.

End ConcurrentOpens.
Section ConcurrentCloses.

Import SharedState.

Context {Structure PVStructure BitSet : Type}.

Implicit Types (pv : SharedPV Structure PVStructure BitSet).
Implicit Types (c : config Structure PVStructure BitSet).
Implicit Types (this hd : addr).

Local Abbreviation disciplined := (@disciplined Structure PVStructure BitSet).





End ConcurrentCloses.

(** ** Any pool of method calls *)

Section PoolFacts.

Import SharedState.

Context {Structure PVStructure BitSet : Type}.

Implicit Types (pv : SharedPV Structure PVStructure BitSet).
Implicit Types (c : config Structure PVStructure BitSet).
Implicit Types (p q : prog Structure PVStructure BitSet).
Implicit Types (m : method PVStructure).

Local Abbreviation disciplined := (@disciplined Structure PVStructure BitSet).
Local Abbreviation invoke := (@invoke Structure PVStructure BitSet).

Lemma SharedMonitorFIFO_dtor_disciplined (this : addr) :
  disciplined 0 (SharedMonitorFIFO_dtor this).
Proof. cbn. repeat split; lia. Qed.

Lemma invoke_disciplined m : disciplined 0 (invoke m).
Proof.
  destruct m.
  - apply SharedChannel_ctor_disciplined.
  - apply SharedChannel_dtor_disciplined.
  - apply getField_disciplined.
  - apply createChannelPut_disciplined.
  - apply createChannelRPC_disciplined.
  - apply createMonitor_disciplined.
  - apply SharedMonitorFIFO_dtor_disciplined.
Qed.

Lemma pool_exclusion pv (ms : list (method PVStructure)) sched c :
  exec sched (start pv (invoke <$> ms)) = Some c → exclusion c.
Proof.
  intros Hexec. eapply exclusion_exec; [|done].
  apply exclusion_start, Forall_fmap, Forall_true. intros m. apply invoke_disciplined.
Qed.




Lemma disciplined_progress c :
  exclusion c →
  (∀ p, p ∈ threads c → faulted p = false) →
  all_returned c = false →
  ∃ i c', step i c = Some c'.
Proof.
  intros [Hpos Hall] Hnofault Hnot.
  destruct (mutex c) as [[i d]|] eqn:Hm.
  - destruct (Hpos _ _ eq_refl) as [Hd Hlt].
    destruct (lookup_lt_is_Some_2 _ _ Hlt) as [p Hi].
    pose proof (Hall i p Hi) as Hp. cbn in Hp.
    rewrite decide_True in Hp by done.
    pose proof (Hnofault p ltac:(by eapply list_elem_of_lookup_2)) as Hf.
    exists i. unfold step. rewrite Hi, Hm.
    destruct p as [r| |k|k|X f k|f k|e k]; cbn in Hp, Hf; try done; try lia.
    + rewrite decide_True by done. by eexists.
    + destruct d as [|d]; [done |]. rewrite decide_True by done. by eexists.
    + by eexists.
    + by eexists.
    + by eexists.
  - assert (∃ j p, threads c !! j = Some p ∧ returned p = false) as (j & p & Hj & Hr).
    { unfold all_returned in Hnot.
      apply not_true_iff_false in Hnot. rewrite <-Is_true_true, forallb_True in Hnot.
      apply not_Forall_Exists in Hnot; [|apply _].
      apply Exists_exists in Hnot as (p & Hin & Hp).
      apply list_elem_of_lookup in Hin as [j Hj].
      exists j, p. split; [done |].
      destruct (returned p) eqn:Hr; [|done]. destruct Hp. by rewrite Hr. }
    pose proof (Hall j p Hj) as Hp. cbn in Hp.
    pose proof (Hnofault p ltac:(by eapply list_elem_of_lookup_2)) as Hf.
    exists j. unfold step. rewrite Hj, Hm.
    destruct p as [r| |k|k|X f k|f k|e k]; cbn in Hp, Hf, Hr; try done; try lia.
    + by eexists.
    + by eexists.
Qed.

(** X7: the methods cannot deadlock on the record's mutex: in every
    reachable state in which no thread has faulted and some thread has not
    returned, some thread can take a step. *)
Theorem no_deadlock pv (ms : list (method PVStructure)) sched c :
  exec sched (start pv (invoke <$> ms)) = Some c →
  (∀ p, p ∈ threads c → faulted p = false) →
  all_returned c = false →
  ∃ i c', step i c = Some c'.
Proof.
  intros Hexec. apply disciplined_progress. by eapply pool_exclusion.
Qed.

End PoolFacts.

(** ** Channels closed at the same time *)

Section ConcurrentClosesOnce.

Import SharedState.

Context {Structure PVStructure BitSet : Type}.

Implicit Types (c : config Structure PVStructure BitSet).
Implicit Types (this hd : addr).
Implicit Types (pv : SharedPV Structure PVStructure BitSet).
Implicit Types (phs : list (addr * dphase)).
Implicit Types (cbs : list (Event Structure PVStructure BitSet)).

Local Abbreviation dtor_at := (@dtor_at Structure PVStructure BitSet).
Local Abbreviation dcode := (@dcode Structure PVStructure BitSet).
Local Abbreviation disciplined := (@disciplined Structure PVStructure BitSet).

Lemma dtor_at_DIdle this : dtor_at this DIdle = SharedChannel_dtor this.
Proof. reflexivity. Qed.

Lemma returned_dcode this ph : returned (dtor_at this ph) = true ↔ ph = DFinished.
Proof. by destruct ph. Qed.

Lemma faulted_dcode this ph : faulted (dtor_at this ph) = false.
Proof. by destruct ph. Qed.

Ltac depth_case :=
  repeat (cbn in *; match goal with
  | H : _ ∧ _ |- _ => destruct H as [? ?]
  | H : ∀ x : bool, _ |- _ => specialize (H false)
  | H : ∀ x : option _, _ |- _ => specialize (H None)
  | H : match ?d with 0 => False | S _ => _ end |- _ =>
      destruct d; [contradiction |]
  end); try done; try lia.

Lemma dtor_depth this ph d :
  disciplined d (dtor_at this ph) → d = ddepth ph.
Proof.
  destruct ph as [| | | | |[h|]|[h|]|h|]; cbn; intros H; depth_case.
Qed.

(** The channels still attached. *)
Lemma attached_subset phs x : x ∈ attached phs → x ∈ phs.*1.
Proof.
  induction phs as [|[t ph] phs IH]; cbn; [done |].
  destruct (unremoved ph).
  - intros [->|Hin]%elem_of_cons; [left | right; by apply IH].
  - intros Hin. right. by apply IH.
Qed.

Lemma attached_nil_lookup phs j y :
  attached phs = [] → phs !! j = Some y → unremoved y.2 = false.
Proof.
  revert j. induction phs as [|[t ph] phs IH]; intros [|j]; cbn; try done.
  - intros Hnil [= <-]. cbn. by destruct (unremoved ph).
  - destruct (unremoved ph); [done |]. apply IH.
Qed.

Lemma attached_insert_keep phs i this ph ph' :
  phs !! i = Some (this, ph) → unremoved ph' = unremoved ph →
  attached (<[i:=(this, ph')]> phs) = attached phs.
Proof.
  revert i. induction phs as [|[t q] phs IH]; intros [|i]; try done.
  - intros [= -> ->] Hu. cbn. by rewrite Hu.
  - intros Hi Hu. cbn in Hi.
    change (attached (<[S i:=(this, ph')]> ((t, q) :: phs)))
      with (if unremoved q then t :: attached (<[i:=(this, ph')]> phs)
            else attached (<[i:=(this, ph')]> phs)).
    by rewrite (IH i Hi Hu).
Qed.

Lemma remove_absent (x : addr) (l : list addr) : x ∉ l → remove x l = l.
Proof.
  unfold remove. induction l as [|y l IH]; [done |].
  intros Hnot. apply not_elem_of_cons in Hnot as [Hne Hnot].
  rewrite filter_cons_True by done. by rewrite IH.
Qed.

Lemma attached_insert_remove phs i this ph ph' :
  NoDup phs.*1 → phs !! i = Some (this, ph) →
  unremoved ph = true → unremoved ph' = false →
  attached (<[i:=(this, ph')]> phs) = remove this (attached phs).
Proof.
  revert i. induction phs as [|[t q] phs IH]; intros [|i] Hnd; try done.
  - intros [= -> ->] Hu Hu'. cbn in Hnd. apply NoDup_cons in Hnd as [Hnot _].
    cbn. rewrite Hu, Hu'. unfold remove. rewrite filter_cons_False by naive_solver.
    symmetry. apply remove_absent. intros Hin. by apply attached_subset in Hin.
  - intros Hi Hu Hu'. cbn in Hi, Hnd. apply NoDup_cons in Hnd as [Hnot Hnd].
    change (attached (<[S i:=(this, ph')]> ((t, q) :: phs)))
      with (if unremoved q then t :: attached (<[i:=(this, ph')]> phs)
            else attached (<[i:=(this, ph')]> phs)).
    rewrite (IH i Hnd Hi Hu Hu'). cbn [attached fst snd].
    destruct (unremoved q); [|done].
    unfold remove. rewrite filter_cons_True; [done |].
    intros ->. apply Hnot. apply list_elem_of_fmap. exists (this, ph).
    split; [done |]. by eapply list_elem_of_lookup_2.
Qed.

Lemma fst_insert phs i this ph ph' :
  phs !! i = Some (this, ph) → (<[i:=(this, ph')]> phs).*1 = phs.*1.
Proof.
  intros Hi. rewrite list_fmap_insert. apply list_insert_id.
  by rewrite list_lookup_fmap, Hi.
Qed.

Ltac upd :=
  let j := fresh "j" in let y := fresh "y" in let Hj := fresh "Hj" in
  intros j y Hj;
  apply list_lookup_insert_Some in Hj as [(<- & <- & _)|[? Hj]];
  [cbn; try done | eauto].

Ltac upd_but :=
  let j := fresh "j" in let y := fresh "y" in let Hj := fresh "Hj" in
  let Hne := fresh "Hne" in
  intros j y Hne Hj;
  apply list_lookup_insert_Some in Hj as [(<- & <- & _)|[? Hj]];
  [cbn; try done | eauto].

Ltac other_thread i Hi i0 Hi0 :=
  assert (i0 ≠ i) by (intros ->; rewrite Hi in Hi0; by injection Hi0 as <-).

(** A step that does not remove: the thread moves from [ph] to [ph'], both
    on the same side of the removal. *)
Lemma dstage_lock hd phs cbs i this :
  phs !! i = Some (this, DIdle) →
  dstage hd phs cbs → dstage hd (<[i:=(this, DRemoving)]> phs) cbs.
Proof.
  intros Hi Hst.
  unfold dstage. rewrite (attached_insert_keep phs i this DIdle DRemoving Hi eq_refl).
  destruct Hst as [(? & Hpre & Hsome & Hseen)|[(? & ? & i0 & x & Hi0 & Htok & Hoth)|(? & ? & Hall)]].
  - left. split_and!; [done | upd | |].
    + intros Hnil. destruct (Hsome Hnil) as (j & y & Hj & Hy).
      other_thread i Hi j Hj. exists j, y. by rewrite list_lookup_insert_ne.
    + upd.
  - other_thread i Hi i0 Hi0. by specialize (Hoth i _ ltac:(done) Hi).
  - by specialize (Hall i _ Hi).
Qed.

Lemma dstage_remove hd phs cbs i this :
  phs !! i = Some (this, DRemoving) → dalone phs i →
  dstage hd phs cbs → dstage hd (<[i:=(this, DChecking)]> phs) cbs.
Proof.
  intros Hi Halone Hst. pose proof (lookup_lt_Some _ _ _ Hi) as Hlt.
  destruct Hst as [(? & Hpre & Hsome & Hseen)|[(? & ? & i0 & x & Hi0 & Htok & Hoth)|(? & ? & Hall)]].
  - left. split_and!; [done | upd | |].
    + intros _. exists i, (this, DChecking). by rewrite list_lookup_insert_eq.
    + intros j y Hj Hy.
      apply list_lookup_insert_Some in Hj as [(<- & <- & _)|[? Hj]]; [done |].
      specialize (Halone j y ltac:(done) Hj). by destruct y as [? []].
  - other_thread i Hi i0 Hi0. by specialize (Hoth i _ ltac:(done) Hi).
  - by specialize (Hall i _ Hi).
Qed.

Lemma dstage_check hd phs cbs i this (e : bool) :
  phs !! i = Some (this, DChecking) → dalone phs i →
  (e = true ↔ attached phs = []) →
  dstage hd phs cbs →
  dstage hd (<[i:=(this, if e then DRelocking else DLeaving None)]> phs) cbs.
Proof.
  intros Hi Halone He Hst. pose proof (lookup_lt_Some _ _ _ Hi) as Hlt.
  unfold dstage. rewrite (attached_insert_keep phs i this DChecking _ Hi)
    by by destruct e.
  destruct Hst as [(? & Hpre & Hsome & Hseen)|[(? & ? & i0 & x & Hi0 & Htok & Hoth)|(? & ? & Hall)]].
  - left. split_and!; [done | upd; by destruct e | |].
    + intros Hnil. exists i, (this, DRelocking).
      rewrite list_lookup_insert_eq by done. apply He in Hnil. by subst e.
    + intros j y Hj Hy.
      apply list_lookup_insert_Some in Hj as [(<- & <- & _)|[? Hj]].
      * destruct e; [by apply He | done].
      * specialize (Halone j y ltac:(done) Hj). by destruct y as [? []].
  - other_thread i Hi i0 Hi0. by specialize (Hoth i _ ltac:(done) Hi).
  - by specialize (Hall i _ Hi).
Qed.

Lemma dstage_relock hd phs cbs i this :
  phs !! i = Some (this, DRelocking) →
  dstage hd phs cbs → dstage hd (<[i:=(this, DCapturing)]> phs) cbs.
Proof.
  intros Hi Hst. pose proof (lookup_lt_Some _ _ _ Hi) as Hlt.
  unfold dstage. rewrite (attached_insert_keep phs i this DRelocking DCapturing Hi eq_refl).
  destruct Hst as [(? & Hpre & Hsome & Hseen)|[(? & ? & i0 & x & Hi0 & Htok & Hoth)|(? & ? & Hall)]].
  - left. split_and!; [done | upd | |].
    + intros _. exists i, (this, DCapturing). by rewrite list_lookup_insert_eq.
    + intros j y Hj Hy.
      apply list_lookup_insert_Some in Hj as [(<- & <- & _)|[? Hj]]; [|by eauto].
      by apply (Hseen i _ Hi).
  - other_thread i Hi i0 Hi0. by specialize (Hoth i _ ltac:(done) Hi).
  - by specialize (Hall i _ Hi).
Qed.

Lemma dstage_capture hd phs cbs i this :
  phs !! i = Some (this, DCapturing) → dalone phs i →
  dstage hd phs cbs → dstage hd (<[i:=(this, DInner (Some hd))]> phs) cbs.
Proof.
  intros Hi Halone Hst. pose proof (lookup_lt_Some _ _ _ Hi) as Hlt.
  unfold dstage. rewrite (attached_insert_keep phs i this DCapturing (DInner (Some hd)) Hi eq_refl).
  destruct Hst as [(? & Hpre & Hsome & Hseen)|[(? & ? & i0 & x & Hi0 & Htok & Hoth)|(? & ? & Hall)]].
  - right; left. pose proof (Hseen i _ Hi I) as Hnil. split_and!; [done.. |].
    exists i, (this, DInner (Some hd)).
    split_and!; [by apply list_lookup_insert_eq | done |].
    upd_but. specialize (Hpre _ _ Hj). specialize (Halone _ _ ltac:(done) Hj).
    pose proof (attached_nil_lookup _ _ _ Hnil Hj) as Hun.
    by destruct y as [? []].
  - other_thread i Hi i0 Hi0. by specialize (Hoth i _ ltac:(done) Hi).
  - by specialize (Hall i _ Hi).
Qed.

Lemma dstage_inner hd phs cbs i this h :
  phs !! i = Some (this, DInner h) →
  dstage hd phs cbs → dstage hd (<[i:=(this, DLeaving h)]> phs) cbs.
Proof.
  intros Hi Hst. pose proof (lookup_lt_Some _ _ _ Hi) as Hlt.
  unfold dstage. rewrite (attached_insert_keep phs i this (DInner h) (DLeaving h) Hi eq_refl).
  destruct Hst as [(? & Hpre & Hsome & Hseen)|[(? & ? & i0 & x & Hi0 & Htok & Hoth)|(? & ? & Hall)]].
  - by specialize (Hpre i _ Hi).
  - right; left. split_and!; [done.. |].
    destruct (decide (i0 = i)) as [->|Hne].
    + rewrite Hi in Hi0. injection Hi0 as <-. destruct h as [h|]; [|done].
      exists i, (this, DLeaving (Some h)).
      split_and!; [by apply list_lookup_insert_eq | done |]. upd_but.
    + by specialize (Hoth i _ ltac:(done) Hi).
  - by specialize (Hall i _ Hi).
Qed.

Lemma dstage_leave hd phs cbs i this h :
  phs !! i = Some (this, DLeaving h) →
  dstage hd phs cbs →
  dstage hd
    (<[i:=(this, match h with Some h => DNotifying h | None => DFinished end)]> phs) cbs.
Proof.
  intros Hi Hst. pose proof (lookup_lt_Some _ _ _ Hi) as Hlt.
  unfold dstage. rewrite (attached_insert_keep phs i this (DLeaving h) _ Hi)
    by by destruct h.
  destruct Hst as [(? & Hpre & Hsome & Hseen)|[(? & ? & i0 & x & Hi0 & Htok & Hoth)|(? & ? & Hall)]].
  - left. pose proof (Hpre i _ Hi) as Hp. destruct h as [h|]; [done |].
    split_and!; [done | upd | |].
    + intros Hnil. destruct (Hsome Hnil) as (j & y & Hj & Hy).
      other_thread i Hi j Hj. exists j, y. by rewrite list_lookup_insert_ne.
    + upd.
  - right; left. split_and!; [done.. |].
    destruct (decide (i0 = i)) as [->|Hne].
    + rewrite Hi in Hi0. injection Hi0 as <-. destruct h as [h|]; [|done].
      exists i, (this, DNotifying h).
      split_and!; [by apply list_lookup_insert_eq | done |]. upd_but.
    + exists i0, x. split_and!; [by rewrite list_lookup_insert_ne | done |].
      upd_but. specialize (Hoth i _ ltac:(done) Hi). by destruct h.
  - right; right. split_and!; [done.. |]. upd.
    specialize (Hall i _ Hi). by destruct h.
Qed.

Lemma dstage_notify hd phs cbs i this h :
  phs !! i = Some (this, DNotifying h) →
  dstage hd phs cbs →
  dstage hd (<[i:=(this, DFinished)]> phs) (cbs ++ [onLastDisconnect h]).
Proof.
  intros Hi Hst. pose proof (lookup_lt_Some _ _ _ Hi) as Hlt.
  unfold dstage. rewrite (attached_insert_keep phs i this (DNotifying h) DFinished Hi eq_refl).
  destruct Hst as [(? & Hpre & Hsome & Hseen)|[(-> & ? & i0 & x & Hi0 & Htok & Hoth)|(? & ? & Hall)]].
  - by specialize (Hpre i _ Hi).
  - destruct (decide (i0 = i)) as [->|Hne].
    + rewrite Hi in Hi0. injection Hi0 as <-. cbn in Htok. subst h.
      right; right. split_and!; [done.. |].
      intros j y Hj.
      apply list_lookup_insert_Some in Hj as [(<- & <- & _)|[? Hj]]; [done | eauto].
    + by specialize (Hoth i _ ltac:(done) Hi).
  - by specialize (Hall i _ Hi).
Qed.


Lemma closing_depth hd cs phs c i x :
  closing hd cs phs c → phs !! i = Some x →
  depth_of i (mutex c) = ddepth x.2.
Proof.
  intros (_ & Hth & [_ Hall] & _) Hi.
  eapply dtor_depth, Hall. rewrite Hth, list_lookup_fmap, Hi. reflexivity.
Qed.

Lemma closing_mutex hd cs phs c i x :
  closing hd cs phs c → phs !! i = Some x → 0 < ddepth x.2 →
  mutex c = Some (i, ddepth x.2).
Proof.
  intros Hcl Hi Hd. pose proof (closing_depth _ _ _ _ _ _ Hcl Hi) as Hdepth.
  unfold depth_of in Hdepth. destruct (mutex c) as [[j d]|]; [|lia].
  destruct (decide (j = i)) as [->|]; [by subst | lia].
Qed.

Lemma closing_alone hd cs phs c i x :
  closing hd cs phs c → phs !! i = Some x → 0 < ddepth x.2 → dalone phs i.
Proof.
  intros Hcl Hi Hd j y Hne Hj.
  pose proof (closing_mutex _ _ _ _ _ _ Hcl Hi Hd) as Hm.
  pose proof (closing_depth _ _ _ _ _ _ Hcl Hj) as Hdepth.
  rewrite Hm in Hdepth. cbn in Hdepth. by rewrite decide_False in Hdepth.
Qed.

Lemma closing_step hd cs phs c i c' :
  closing hd cs phs c → step i c = Some c' →
  ∃ x ph', phs !! i = Some x ∧ drank ph' < drank x.2
           ∧ closing hd cs (<[i:=(x.1, ph')]> phs) c'.
Proof.
  intros Hcl Hstep.
  pose proof Hcl as (Hh & Hth & Hex & Hcs & Hnd & Hch & Hst).
  pose proof (exclusion_step _ _ _ Hex Hstep) as Hex'.
  unfold step in Hstep. rewrite Hth, list_lookup_fmap in Hstep.
  destruct (phs !! i) as [[this ph]|] eqn:Hi; [|done].
  pose proof (closing_depth _ _ _ _ _ _ Hcl Hi) as Hdepth.
  pose proof (closing_mutex _ _ _ _ _ _ Hcl Hi) as Hmutex.
  pose proof (closing_alone _ _ _ _ _ _ Hcl Hi) as Halone.
  pose proof (fst_insert phs i this ph) as Hfst.
  assert (Hnd' : NoDup phs.*1) by by rewrite Hcs.
  exists (this, ph).
  destruct ph as [| | | | |h|h|h|]; cbn in Hstep, Hdepth, Hmutex, Halone.
  - exists DRemoving. cbn [fst snd]. split; [done |]. split; [cbn; lia |].
    assert (c' = {| shared := shared c; mutex := Some (i, 1);
                    trace := trace c ++ [Acquire];
                    threads := <[i:=dtor_at this DRemoving]> (dcode <$> phs) |}) as ->.
    { destruct (mutex c) as [[j d]|] eqn:Hm; [|by injection Hstep as <-].
      destruct (decide (j = i)) as [->|]; [|done].
      destruct Hex as [Hpos _]. destruct (Hpos _ _ Hm) as [Hd _].
      cbn in Hdepth. rewrite decide_True in Hdepth by done. lia. }
    split_and!; cbn [shared mutex trace threads];
      [done | by rewrite list_fmap_insert | done | by rewrite Hfst | done | |].
    + by rewrite (attached_insert_keep phs i this DIdle DRemoving Hi eq_refl).
    + rewrite callbacks_app, app_nil_r. by apply dstage_lock.
  - injection Hstep as <-. exists DChecking.
    cbn [fst snd]. split; [done |]. split; [cbn; lia |].
    split_and!; cbn [shared mutex trace threads];
      [done | by rewrite list_fmap_insert | done | by rewrite Hfst | done | |].
    + rewrite (attached_insert_remove phs i this DRemoving DChecking Hnd' Hi eq_refl eq_refl).
      cbn [channels set_channels]. unfold remove. by rewrite Hch.
    + apply dstage_remove; [done | apply Halone; lia | done].
  - injection Hstep as <-.
    exists (if empty (channels (shared c)) then DRelocking else DLeaving None).
    cbn [fst snd]. split; [done |]. split; [cbn; destruct (empty _); cbn; lia |].
    split_and!; cbn [shared mutex trace threads];
      [done | | done | by rewrite Hfst | done | |].
    + rewrite list_fmap_insert. by destruct (empty _).
    + rewrite (attached_insert_keep phs i this DChecking _ Hi); [done |].
      by destruct (empty _).
    + apply dstage_check; [done | apply Halone; lia | | done].
      rewrite empty_true. split; intros Hnil.
      * rewrite Hnil in Hch. by apply Permutation_nil_l in Hch.
      * rewrite Hnil in Hch. by apply Permutation_nil_r in Hch.
  - rewrite (Hmutex ltac:(lia)) in Hstep. cbn in Hstep.
    rewrite decide_True in Hstep by done. injection Hstep as <-.
    exists DCapturing. cbn [fst snd]. split; [done |]. split; [cbn; lia |].
    split_and!; cbn [shared mutex trace threads];
      [done | by rewrite list_fmap_insert | done | by rewrite Hfst | done | |].
    + by rewrite (attached_insert_keep phs i this DRelocking DCapturing Hi eq_refl).
    + rewrite callbacks_app, app_nil_r. by apply dstage_relock.
  - injection Hstep as <-. exists (DInner (Some hd)).
    cbn [fst snd]. split; [done |]. split; [cbn; lia |].
    split_and!; cbn [shared mutex trace threads];
      [done | by rewrite list_fmap_insert, Hh | done | by rewrite Hfst | done | |].
    + by rewrite (attached_insert_keep phs i this DCapturing (DInner (Some hd)) Hi eq_refl).
    + apply dstage_capture; [done | apply Halone; lia | done].
  - rewrite (Hmutex ltac:(lia)) in Hstep. cbn in Hstep.
    rewrite decide_True in Hstep by done. injection Hstep as <-.
    exists (DLeaving h). cbn [fst snd]. split; [done |]. split; [cbn; lia |].
    split_and!; cbn [shared mutex trace threads];
      [done | by rewrite list_fmap_insert | done | by rewrite Hfst | done | |].
    + by rewrite (attached_insert_keep phs i this (DInner h) (DLeaving h) Hi eq_refl).
    + rewrite callbacks_app, app_nil_r. by apply dstage_inner.
  - rewrite (Hmutex ltac:(lia)) in Hstep. cbn in Hstep.
    rewrite decide_True in Hstep by done. injection Hstep as <-.
    exists (match h with Some h => DNotifying h | None => DFinished end).
    cbn [fst snd]. split; [done |]. split; [cbn; destruct h; cbn; lia |].
    split_and!; cbn [shared mutex trace threads];
      [done | | done | by rewrite Hfst | done | |].
    + rewrite list_fmap_insert. by destruct h.
    + rewrite (attached_insert_keep phs i this (DLeaving h) _ Hi); [done |].
      by destruct h.
    + rewrite callbacks_app, app_nil_r. by apply dstage_leave.
  - injection Hstep as <-. exists DFinished.
    cbn [fst snd]. split; [done |]. split; [cbn; lia |].
    split_and!; cbn [shared mutex trace threads];
      [done | by rewrite list_fmap_insert | done | by rewrite Hfst | done | |].
    + by rewrite (attached_insert_keep phs i this (DNotifying h) DFinished Hi eq_refl).
    + rewrite callbacks_app. by apply dstage_notify.
  - done.
Qed.


Lemma closing_exec hd cs sched phs c c' :
  closing hd cs phs c → exec sched c = Some c' →
  ∃ phs', closing hd cs phs' c'.
Proof.
  revert phs c. induction sched as [|i sched IH]; intros phs c Hcl Hexec; cbn in Hexec.
  - injection Hexec as <-. by exists phs.
  - destruct (step i c) as [c1|] eqn:Hstep; [|done].
    destruct (closing_step _ _ _ _ _ _ Hcl Hstep) as (x & ph' & _ & _ & Hcl1).
    by eapply IH.
Qed.

Lemma attached_idle (cs : list addr) :
  attached ((λ this, (this, DIdle)) <$> cs) = cs.
Proof. induction cs as [|x cs IH]; [done |]. cbn. by rewrite IH. Qed.

Lemma closing_start hd (cs : list addr) pv :
  handler pv = Some hd → NoDup cs → cs ≠ [] → channels pv ≡ₚ cs →
  closing hd cs ((λ this, (this, DIdle)) <$> cs) (start pv (SharedChannel_dtor <$> cs)).
Proof.
  intros Hh Hnd Hne Hch. split_and!; cbn [shared mutex trace threads start].
  - done.
  - rewrite <-list_fmap_compose. by apply list_fmap_ext.
  - apply exclusion_start, Forall_fmap, Forall_true. intros this.
    apply SharedChannel_dtor_disciplined.
  - rewrite <-list_fmap_compose. apply list_fmap_id.
  - done.
  - by rewrite attached_idle.
  - left. rewrite attached_idle. split_and!; [done | | done |].
    + intros j y Hj. rewrite list_lookup_fmap in Hj. by destruct (cs !! j); simplify_eq/=.
    + intros j y Hj. rewrite list_lookup_fmap in Hj. by destruct (cs !! j); simplify_eq/=.
Qed.

Lemma closing_returned hd cs phs c :
  closing hd cs phs c → all_returned c = true →
  ∀ j y, phs !! j = Some y → y.2 = DFinished.
Proof.
  intros (_ & Hth & _) Hall j y Hj. unfold all_returned in Hall.
  rewrite Hth in Hall. apply Is_true_true, forallb_True in Hall.
  rewrite Forall_fmap in Hall. eapply Forall_lookup_1 in Hall; [|done].
  cbn in Hall. apply Is_true_true in Hall. by apply returned_dcode in Hall.
Qed.

Lemma closing_called_once hd cs phs c :
  closing hd cs phs c → length (callbacks (trace c)) ≤ 1.
Proof.
  intros (_ & _ & _ & _ & _ & _ & [(-> & _)|[(-> & _)|(-> & _)]]); cbn; lia.
Qed.

Lemma closing_finished hd cs phs c :
  closing hd cs phs c → all_returned c = true →
  callbacks (trace c) = [onLastDisconnect hd] ∧ channels (shared c) = [].
Proof.
  intros Hcl Hall.
  pose proof (closing_returned _ _ _ _ Hcl Hall) as Hfin.
  destruct Hcl as (_ & _ & _ & _ & _ & Hch & Hst).
  assert (attached phs = []) as Hnil.
  { clear -Hfin. induction phs as [|[t ph] phs IH]; [done |].
    pose proof (Hfin 0 (t, ph) eq_refl) as Hph. cbn in Hph. subst ph.
    cbn. apply IH. intros j y Hj. by apply (Hfin (S j)). }
  rewrite Hnil in Hch. apply Permutation_nil_r in Hch.
  split; [|done].
  destruct Hst as [(_ & _ & Hsome & _)|[(_ & _ & i & x & Hi & Htok & _)|(? & _)]].
  - destruct (Hsome Hnil) as (j & y & Hj & Hy). by rewrite (Hfin j y Hj) in Hy.
  - by rewrite (Hfin i x Hi) in Htok.
  - done.
Qed.

Lemma dwork_insert phs i x y :
  phs !! i = Some x → dwork (<[i:=y]> phs) + drank x.2 = dwork phs + drank y.2.
Proof.
  revert i. induction phs as [|z phs IH]; intros [|i] Hi; try done.
  - cbn in Hi. injection Hi as ->.
    change (<[0:=y]> (x :: phs)) with (y :: phs). cbn [dwork]. lia.
  - cbn in Hi. specialize (IH i Hi).
    change (<[S i:=y]> (z :: phs)) with (z :: <[i:=y]> phs). cbn [dwork]. lia.
Qed.

Lemma closing_completes hd cs phs c :
  closing hd cs phs c → ∃ sched c', exec sched c = Some c' ∧ all_returned c' = true.
Proof.
  remember (dwork phs) as n eqn:Hn. revert phs c Hn.
  induction (lt_wf n) as [n _ IH]. intros phs c -> Hcl.
  destruct (all_returned c) eqn:Hall.
  - by exists [], c.
  - pose proof Hcl as (_ & Hth & Hex & _).
    destruct (disciplined_progress c Hex) as (i & c1 & Hstep); [|done |].
    { intros p Hp. rewrite Hth in Hp. apply list_elem_of_fmap in Hp as (x & -> & _).
      apply faulted_dcode. }
    destruct (closing_step _ _ _ _ _ _ Hcl Hstep) as (x & ph' & Hi & Hrank & Hcl1).
    pose proof (dwork_insert phs i x (x.1, ph') Hi) as Hwork. cbn in Hwork.
    destruct (IH (dwork (<[i:=(x.1, ph')]> phs)) ltac:(lia) _ _ eq_refl Hcl1)
      as (sched & c' & Hexec & Hret).
    exists (i :: sched), c'. cbn. by rewrite Hstep.
Qed.

(** X8: when the channels of a record are all destroyed by concurrent
    threads, [onLastDisconnect] is called at most once under every
    interleaving; once all destructors have returned it has been called
    exactly once and the list of channels is empty; and every interleaving
    can be run on until all of them have returned. *)
Theorem last_disconnect_once hd pv (cs : list addr) sched c :
  handler pv = Some hd → NoDup cs → cs ≠ [] → channels pv ≡ₚ cs →
  exec sched (start pv (SharedChannel_dtor <$> cs)) = Some c →
  length (callbacks (trace c)) ≤ 1
  ∧ (all_returned c = true →
       callbacks (trace c) = [onLastDisconnect hd] ∧ channels (shared c) = [])
  ∧ (∃ sched' c', exec sched' c = Some c' ∧ all_returned c' = true
                  ∧ callbacks (trace c') = [onLastDisconnect hd]).
Proof.
  intros Hh Hnd Hne Hch Hexec.
  destruct (closing_exec hd cs sched _ _ _ (closing_start hd cs pv Hh Hnd Hne Hch) Hexec)
    as (phs & Hcl).
  split_and!.
  - by eapply closing_called_once.
  - by eapply closing_finished.
  - destruct (closing_completes _ _ _ _ Hcl) as (sched' & c' & Hexec' & Hret).
    exists sched', c'. split_and!; [done.. |].
    destruct (closing_exec hd cs sched' _ _ _ Hcl Hexec') as (phs' & Hcl').
    by eapply closing_finished.
Qed.

End ConcurrentClosesOnce.

(** ** Sequences of calls on one record *)

Section SequenceFacts.

Import SharedState.

Context {Structure PVStructure BitSet : Type}.

Implicit Types (pv : SharedPV Structure PVStructure BitSet).
Implicit Types (this requester ret hd : addr).
Implicit Types (subField : string).
Implicit Types (pvRequest : shared_pointer PVStructure).
Implicit Types (ps qs : list (prog Structure PVStructure BitSet)).

Lemma run_all_app ps qs pv :
  all_return ps pv = true →
  run_all (ps ++ qs) pv
  = let '(pv1, t1) := run_all ps pv in
    let '(pv2, t2) := run_all qs pv1 in
    (pv2, t1 ++ t2).
Proof.
  revert pv. induction ps as [|p ps IH]; intros pv; cbn.
  - intros _. by destruct (run_all qs pv).
  - destruct (run p pv) as [[[r|] pv1] t1]; [|done]. intros Hret. rewrite IH by done.
    destruct (run_all ps pv1) as [pv2 t2]. destruct (run_all qs pv2) as [pv3 t3].
    by rewrite app_assoc.
Qed.

Lemma set_channels_id pv (f : list addr → list addr) :
  f (channels pv) = channels pv → set_channels f pv = pv.
Proof. intros Hf. destruct pv. unfold set_channels. cbn in *. by rewrite Hf. Qed.

Lemma set_channels_compose pv (f g : list addr → list addr) :
  set_channels g (set_channels f pv) = set_channels (g ∘ f) pv.
Proof. by destruct pv. Qed.

Lemma set_monitors_compose pv (f g : list addr → list addr) :
  set_monitors g (set_monitors f pv) = set_monitors (g ∘ f) pv.
Proof. by destruct pv. Qed.

Lemma set_monitors_id pv (f : list addr → list addr) :
  f (monitors pv) = monitors pv → set_monitors f pv = pv.
Proof. intros Hf. destruct pv. unfold set_monitors. cbn in *. by rewrite Hf. Qed.

Lemma remove_push_back (x : addr) (l : list addr) :
  x ∉ l → remove x (push_back x l) = l.
Proof.
  intros Hnot. unfold remove, push_back. rewrite filter_app.
  change (filter (λ y, y ≠ x) l) with (remove x l). rewrite remove_absent by done.
  rewrite filter_cons_False by (intros Hx; by apply Hx). by rewrite app_nil_r.
Qed.

(** Opening the channels [cs] one after the other. *)
Lemma run_all_opens hd (cs : list addr) pv :
  handler pv = Some hd →
  all_return (SharedChannel_ctor <$> cs) pv = true
  ∧ run_all (SharedChannel_ctor <$> cs) pv
  = (set_channels (λ l, l ++ cs) pv,
     (run_all (SharedChannel_ctor <$> cs) pv).2)
  ∧ callbacks (run_all (SharedChannel_ctor <$> cs) pv).2
    = if empty (channels pv) && negb (empty cs) then [onFirstConnect hd] else [].
Proof.
  revert pv. induction cs as [|x cs IH]; intros pv Hh.
  - cbn. split_and!; [done | | by rewrite andb_false_r].
    f_equal. symmetry. apply set_channels_id. by rewrite app_nil_r.
  - cbn [fmap list_fmap run_all all_return]. rewrite run_SharedChannel_ctor, Hh.
    specialize (IH (set_channels (push_back x) pv) Hh).
    change (list_fmap _ _ SharedChannel_ctor cs) with (SharedChannel_ctor <$> cs).
    destruct IH as (IHret & IHrun & IHcb).
    destruct (run_all (SharedChannel_ctor <$> cs) (set_channels (push_back x) pv))
      as [pv2 t2] eqn:Hrun.
    cbn [fst snd] in *. injection IHrun as ->. split_and!; [exact IHret | |].
    + f_equal. rewrite set_channels_compose. destruct pv.
      unfold set_channels, compose, push_back. cbn. by rewrite <-app_assoc.
    + rewrite callbacks_app, IHcb. cbn [channels set_channels].
      rewrite push_back_not_empty. cbn [andb]. rewrite app_nil_r.
      destruct (channels pv); done.
Qed.

(** Closing the channels [ds], which are those of the list, one after
    the other. *)
Lemma run_all_closes hd (ds : list addr) pv :
  handler pv = Some hd → NoDup ds → channels pv ≡ₚ ds →
  channels (run_all (SharedChannel_dtor <$> ds) pv).1 = []
  ∧ callbacks (run_all (SharedChannel_dtor <$> ds) pv).2
    = if empty ds then [] else [onLastDisconnect hd].
Proof.
  revert pv. induction ds as [|d ds IH]; intros pv Hh Hnd Hch.
  - cbn. split; [|done]. by apply Permutation_nil_r in Hch.
  - apply NoDup_cons in Hnd as [Hnot Hnd].
    cbn [fmap list_fmap run_all]. rewrite run_SharedChannel_dtor, Hh.
    change (list_fmap _ _ SharedChannel_dtor ds) with (SharedChannel_dtor <$> ds).
    assert (Hch' : remove d (channels pv) ≡ₚ ds).
    { unfold remove. rewrite Hch. rewrite filter_cons_False by (intros Hx; by apply Hx).
      change (filter (λ y, y ≠ d) ds) with (remove d ds). by rewrite remove_absent. }
    destruct (IH (set_channels (remove d) pv) Hh Hnd Hch') as [IHch IHcb].
    destruct (run_all (SharedChannel_dtor <$> ds) (set_channels (remove d) pv))
      as [pv2 t2] eqn:Hrun.
    cbn [fst snd] in *. split; [done |].
    rewrite callbacks_app, IHcb.
    assert (empty (remove d (channels pv)) = empty ds) as ->.
    { unfold empty. apply bool_decide_ext. split; intros Hnil.
      - rewrite Hnil in Hch'. by apply Permutation_nil_l in Hch'.
      - rewrite Hnil in Hch'. by apply Permutation_nil_r in Hch'. }
    destruct (empty ds); reflexivity.
Qed.

(** X9: channels opened one after the other on a record with a handler
    and no channels, then destroyed in any order: the record lists them in
    the order of opening, ends with no channel, and the handler has seen
    one [onFirstConnect] and then one [onLastDisconnect], nothing else. *)
Theorem open_all_close_all hd (cs ds : list addr) pv :
  handler pv = Some hd → channels pv = [] →
  cs ≠ [] → NoDup cs → ds ≡ₚ cs →
  channels (run_all (SharedChannel_ctor <$> cs) pv).1 = cs
  ∧ channels
      (run_all ((SharedChannel_ctor <$> cs) ++ (SharedChannel_dtor <$> ds)) pv).1 = []
  ∧ callbacks
      (run_all ((SharedChannel_ctor <$> cs) ++ (SharedChannel_dtor <$> ds)) pv).2
    = [onFirstConnect hd; onLastDisconnect hd].
Proof.
  intros Hh Hch Hne Hnd Hperm.
  destruct (run_all_opens hd cs pv Hh) as (Hret & Hrun & Hcb).
  rewrite run_all_app by exact Hret.
  destruct (run_all (SharedChannel_ctor <$> cs) pv) as [pv1 t1] eqn:Hopen.
  cbn [fst snd] in *. injection Hrun as ->.
  assert (channels (set_channels (λ l, l ++ cs) pv) = cs) as Hch1
    by (cbn; by rewrite Hch).
  assert (NoDup ds) as Hnd' by by rewrite Hperm.
  destruct (run_all_closes hd ds (set_channels (λ l, l ++ cs) pv) Hh Hnd')
    as [Hfinal Hcb2]; [by rewrite Hch1 |].
  destruct (run_all (SharedChannel_dtor <$> ds) _) as [pv2 t2].
  cbn [fst snd] in *. split_and!; [done | done |].
  rewrite callbacks_app, Hcb, Hcb2, Hch.
  assert (empty cs = false) as -> by (apply bool_decide_eq_false; done).
  assert (empty ds = false) as ->.
  { apply bool_decide_eq_false. intros ->. by apply Permutation_nil_l in Hperm. }
  done.
Qed.


Lemma run_SharedMonitorFIFO_dtor this pv :
  run (SharedMonitorFIFO_dtor this) pv
  = (Some void, set_monitors (remove this) pv, [Acquire; Release]).
Proof. reflexivity. Qed.

(** X10: construction and destruction undo each other.  A channel
    constructed and destroyed leaves the record as it was, with the two
    handler calls just when it was the only channel and a handler is set;
    a monitor created and destroyed leaves the record as it was, the
    creation returns the monitor whenever an opened record has a value,
    and the monitor's destructor calls nobody. *)
Theorem attach_detach_round_trip this requester pvRequest ret pv :
  this ∉ channels pv → ret ∉ monitors pv →
  (is_Some (type pv) → is_Some (current pv)) →
  (run_all [SharedChannel_ctor this; SharedChannel_dtor this] pv).1 = pv
  ∧ callbacks (run_all [SharedChannel_ctor this; SharedChannel_dtor this] pv).2
    = match channels pv, handler pv with
      | [], Some h => [onFirstConnect h; onLastDisconnect h]
      | _, _ => []
      end
  ∧ (run_all [createMonitor requester pvRequest ret; SharedMonitorFIFO_dtor ret] pv).1
    = pv
  ∧ (run (createMonitor requester pvRequest ret) pv).1.1 = Some (object ret)
  ∧ callbacks (run (SharedMonitorFIFO_dtor ret) pv).2 = [].
Proof.
  intros Hthis Hret Hvalue. split_and!.
  - cbn [run_all]. rewrite run_SharedChannel_ctor, run_SharedChannel_dtor. cbn [fst].
    rewrite set_channels_compose. apply set_channels_id.
    unfold compose. by apply remove_push_back.
  - cbn [run_all]. rewrite run_SharedChannel_ctor, run_SharedChannel_dtor. cbn [snd].
    cbn [channels set_channels handler]. rewrite remove_push_back by done.
    rewrite app_nil_r.
    destruct (channels pv) as [|x l]; destruct (handler pv); reflexivity.
  - cbn [run_all]. rewrite run_createMonitor.
    assert (∃ r t, match type pv with
                   | Some ty =>
                       match current pv with
                       | Some value =>
                           (Some (object ret), set_monitors (push_back ret) pv,
                            [Acquire; Ev (MonitorFIFO_open ret (Some ty));
                             Ev (MonitorFIFO_post ret value (valid pv)); Release;
                             Ev (MonitorFIFO_notify ret)])
                       | None =>
                           (None, set_monitors (push_back ret) pv,
                            [Acquire; Ev (MonitorFIFO_open ret (Some ty))])
                       end
                   | None =>
                       (Some (object ret), set_monitors (push_back ret) pv,
                        [Acquire; Release])
                   end
                   = (Some r, set_monitors (push_back ret) pv, t)) as (r & t & ->).
    { destruct (type pv) as [ty|]; [|by eexists _, _].
      destruct (Hvalue ltac:(by eexists)) as [v ->]. by eexists _, _. }
    cbn [run SharedMonitorFIFO_dtor fst snd].
    rewrite set_monitors_compose. apply set_monitors_id.
    unfold compose. by apply remove_push_back.
  - rewrite run_createMonitor.
    destruct (type pv) as [t|]; [|done].
    destruct (Hvalue ltac:(by eexists)) as [v ->]. done.
  - done.
Qed.

Ltac frame_done :=
  repeat split; rewrite ?app_nil_r; try reflexivity;
  by destruct (nonnull _); rewrite ?app_nil_r.

Lemma run_invoke_frame (m : method PVStructure) pv :
  let pv' := (run (invoke m) pv).1.2 in
  type pv' = type pv ∧ current pv' = current pv
  ∧ valid pv' = valid pv ∧ handler pv' = handler pv
  ∧ puts pv' = puts pv ++ option_list (created_put m)
  ∧ rpcs pv' = rpcs pv ++ option_list (created_rpc m)
  ∧ getfields pv' =
      getfields pv ++ (if nonnull (type pv) then [] else option_list (asked_field m)).
Proof.
  destruct m; cbn [invoke created_put created_rpc asked_field option_list].
  - rewrite run_SharedChannel_ctor. cbn. frame_done.
  - rewrite run_SharedChannel_dtor. cbn. frame_done.
  - rewrite run_getField. destruct (type pv) eqn:Ht; cbn; rewrite ?Ht; frame_done.
  - rewrite run_createChannelPut. cbn. frame_done.
  - rewrite run_createChannelRPC. cbn. frame_done.
  - rewrite run_createMonitor.
    destruct (type pv) eqn:Ht, (current pv) eqn:Hc; cbn; rewrite ?Ht, ?Hc; frame_done.
  - rewrite run_SharedMonitorFIFO_dtor. cbn. frame_done.
Qed.

Lemma run_invoke_returns (m : method PVStructure) pv :
  (is_Some (type pv) → is_Some (current pv)) →
  is_Some (run (invoke m) pv).1.1.
Proof.
  intros Hvalue. destruct m; cbn [invoke].
  - rewrite run_SharedChannel_ctor. by eexists.
  - rewrite run_SharedChannel_dtor. by eexists.
  - rewrite run_getField. destruct (type pv); by eexists.
  - rewrite run_createChannelPut. by eexists.
  - rewrite run_createChannelRPC. by eexists.
  - rewrite run_createMonitor. destruct (type pv) as [ty|]; [|by eexists].
    destruct (Hvalue ltac:(by eexists)) as [v ->]. by eexists.
  - rewrite run_SharedMonitorFIFO_dtor. by eexists.
Qed.

(** X11: no method of the channel or the monitor touches the type, the
    value, the valid set or the handler of the record, whether the calls
    return or one of them faults.  On a record that has a value whenever
    it has a type, every call of any sequence of them returns, and the
    pending puts, rpcs and getField requesters grow exactly by the
    operations created and, while the record is not open, the requesters
    that asked, in the order of the calls. *)
Theorem methods_frame (ms : list (method PVStructure)) pv :
  let pv' := (run_all (invoke <$> ms) pv).1 in
  type pv' = type pv ∧ current pv' = current pv
  ∧ valid pv' = valid pv ∧ handler pv' = handler pv
  ∧ ((is_Some (type pv) → is_Some (current pv)) →
     all_return (invoke <$> ms) pv = true
     ∧ puts pv' = puts pv ++ omap created_put ms
     ∧ rpcs pv' = rpcs pv ++ omap created_rpc ms
     ∧ getfields pv' =
         getfields pv ++ (if nonnull (type pv) then [] else omap asked_field ms)).
Proof.
  revert pv. induction ms as [|m ms IH]; intros pv.
  - cbn. split_and!; [done.. |]. intros _. frame_done.
  - cbn [fmap list_fmap run_all all_return].
    change (list_fmap _ _ invoke ms) with (invoke <$> ms).
    pose proof (run_invoke_frame m pv) as Hm.
    pose proof (run_invoke_returns m pv) as Hreturns.
    destruct (run (invoke m) pv) as [[r pv1] t1]. cbn [fst snd] in Hm, Hreturns.
    destruct Hm as (Ht & Hc & Hv & Hh & Hp & Hr & Hg).
    destruct r as [r|].
    + specialize (IH pv1).
      destruct (run_all (invoke <$> ms) pv1) as [pv2 t2]. cbn [fst snd] in IH |- *.
      destruct IH as (Ht' & Hc' & Hv' & Hh' & Hrest).
      split_and!; [congruence.. |].
      intros Hvalue.
      destruct Hrest as (Hret & Hp' & Hr' & Hg'); [by rewrite Ht, Hc |].
      rewrite Hp', Hr', Hg', Ht, Hp, Hr, Hg.
      split_and!; [exact Hret | | |].
      * rewrite <-app_assoc. f_equal. cbn [omap list_omap]. by destruct (created_put m).
      * rewrite <-app_assoc. f_equal. cbn [omap list_omap]. by destruct (created_rpc m).
      * rewrite <-app_assoc. f_equal. destruct (nonnull (type pv)); [done |].
        cbn [omap list_omap]. by destruct (asked_field m).
    + cbn [fst]. split_and!; [done.. |].
      intros Hvalue. destruct (Hreturns Hvalue) as [r Hnone]. discriminate.
Qed.


End SequenceFacts.
(** ** A monitor created while updates are posted *)

Section MonitorSeeding.


Import SharedState.

Context {Structure PVStructure BitSet : Type}.

Implicit Types (c : config Structure PVStructure BitSet).
Implicit Types (pv : SharedPV Structure PVStructure BitSet).
Implicit Types (ret : addr) (ty : Structure) (value : PVStructure) (vld : BitSet).
Implicit Types (mph : mphase) (ph : pphase).
Implicit Types (u : PVStructure * BitSet).
Implicit Types (pphs : list ((PVStructure * BitSet) * pphase)).
Implicit Types (q : MonitorFIFO Structure PVStructure BitSet).

Local Abbreviation disciplined := (@disciplined Structure PVStructure BitSet).
Local Abbreviation monitor_at := (@monitor_at Structure PVStructure BitSet).
Local Abbreviation poster_at := (@poster_at Structure PVStructure BitSet).
Local Abbreviation poster_code := (@poster_code Structure PVStructure BitSet).
Local Abbreviation MonitorFIFO_after := (@MonitorFIFO_after Structure PVStructure BitSet).

Lemma monitor_at_MIdle requester (pvRequest : shared_pointer PVStructure) ret ty value vld :
  monitor_at ret ty value vld MIdle = createMonitor requester pvRequest ret.
Proof. reflexivity. Qed.

Lemma poster_at_PIdle u : poster_at u PIdle = SharedPV_post u.
Proof. reflexivity. Qed.

Lemma monitor_leave_depth ret d :
  disciplined d (monitor_leave ret true) → d = 1.
Proof. destruct d as [|[|d]]; cbn; [done | done | intros [H _]; lia]. Qed.

Lemma monitor_valid_depth ret value vld d :
  disciplined d (monitor_valid ret true value) → d = 1.
Proof. intros [_ H]. destruct (H vld) as [_ H']. by apply monitor_leave_depth in H'. Qed.

Lemma monitor_value_depth ret value vld d :
  disciplined d (monitor_value ret true) → d = 1.
Proof. intros [_ H]. specialize (H (Some value)). by apply (monitor_valid_depth _ _ vld) in H. Qed.

Lemma monitor_seed_depth ret value vld d :
  disciplined d (monitor_seed ret true) → d = 1.
Proof.
  intros [_ H]. destruct (H None) as [_ H']. by apply (monitor_value_depth _ value vld) in H'.
Qed.

Lemma monitor_test_depth ret value vld d :
  disciplined d (monitor_test ret) → d = 1.
Proof. intros [_ H]. specialize (H true). by apply (monitor_seed_depth _ value vld) in H. Qed.

Lemma monitor_depth ret ty value vld mph d :
  disciplined d (monitor_at ret ty value vld mph) → d = mdepth mph.
Proof.
  destruct mph; cbn [monitor_at mdepth].
  - intros [_ H]. apply (monitor_test_depth _ value vld) in H. lia.
  - intros [_ H]. by apply (monitor_test_depth _ value vld) in H.
  - apply (monitor_test_depth _ value vld).
  - apply (monitor_seed_depth _ value vld).
  - intros [_ H]. by apply (monitor_value_depth _ value vld) in H.
  - apply (monitor_value_depth _ value vld).
  - apply (monitor_valid_depth _ _ vld).
  - intros [_ H]. by apply monitor_leave_depth in H.
  - apply monitor_leave_depth.
  - by intros [H _].
  - done.
Qed.

Lemma MonitorFIFO_after_snoc ret (t : list (Obs Structure PVStructure BitSet)) o :
  MonitorFIFO_after ret (events (t ++ [o]))
  = match o with
    | Ev e => MonitorFIFO_apply ret (MonitorFIFO_after ret (events t)) e
    | _ => MonitorFIFO_after ret (events t)
    end.
Proof.
  rewrite events_app. unfold SharedState.MonitorFIFO_after. rewrite foldl_app.
  by destruct o.
Qed.

Lemma emit_posts_disciplined d u (ms : list addr) (k : prog Structure PVStructure BitSet) :
  0 < d → disciplined d k →
  disciplined d (emit_all ((λ m, posted m u) <$> ms) k).
Proof. intros Hd Hk. induction ms as [|m ms IH]; [done |]. cbn. by split. Qed.

Lemma emit_notifies_disciplined (ms : list addr) :
  disciplined 0 (emit_all (MonitorFIFO_notify <$> ms) (Ret void)).
Proof. induction ms as [|m ms IH]; [done |]. cbn. by split. Qed.

Lemma SharedPV_post_disciplined u : disciplined 0 (SharedPV_post u).
Proof.
  cbn. split; [lia |]. intros ms. apply emit_posts_disciplined; [lia |].
  cbn. apply emit_notifies_disciplined.
Qed.

Lemma seeded_post ret ty value vld mph q m (v : PVStructure) (b : BitSet) :
  mdepth mph = 0 → (mph = MIdle → m ≠ ret) →
  seeded ty value vld mph q →
  seeded ty value vld mph (MonitorFIFO_apply ret q (MonitorFIFO_post m v b)).
Proof.
  intros Hd Hidle Hq. cbn [MonitorFIFO_apply].
  destruct (decide (m = ret)) as [->|Hne]; [|done].
  destruct mph; try done; cbn in Hq |- *.
  - by destruct Hidle.
  - destruct Hq as [Ho (later & Hl)]. rewrite Ho. cbn. split; [done |].
    exists (later ++ [(v, b)]). by rewrite Hl.
  - destruct Hq as [Ho (later & Hl)]. rewrite Ho. cbn. split; [done |].
    exists (later ++ [(v, b)]). by rewrite Hl.
Qed.

Lemma poster_holds ret ty value vld init mph pphs c k
    (e : Event Structure PVStructure BitSet) (p : prog Structure PVStructure BitSet) :
  seeding ret ty value vld init mph pphs c →
  threads c !! S k = Some (Emit e p) → is_callback e = false →
  mdepth mph = 0.
Proof.
  intros (_ & Hth & [_ Hall] & _) Hk He.
  pose proof (Hall (S k) _ Hk) as Hp. cbn in Hp. rewrite He in Hp. destruct Hp as [Hd _].
  pose proof (Hall 0 (monitor_at ret ty value vld mph)) as H0.
  rewrite Hth in H0. specialize (H0 eq_refl).
  apply monitor_depth in H0. rewrite <-H0.
  unfold depth_of in *. destruct (mutex c) as [[j d]|]; [|done].
  destruct (decide (j = S k)) as [->|]; [|lia]. by rewrite decide_False.
Qed.

Lemma pwork_insert bound pphs k x y :
  pphs !! k = Some x →
  pwork bound (<[k:=y]> pphs) + prank bound x.2 = pwork bound pphs + prank bound y.2.
Proof.
  revert k. induction pphs as [|z pphs IH]; intros [|k] Hk; try done.
  - cbn in Hk. injection Hk as ->.
    change (<[0:=y]> (x :: pphs)) with (y :: pphs). cbn [pwork]. lia.
  - cbn in Hk. specialize (IH k Hk).
    change (<[S k:=y]> (z :: pphs)) with (z :: <[k:=y]> pphs). cbn [pwork]. lia.
Qed.

(** Putting the invariant together after a step of the creating thread
    and after a step of a posting thread. *)
Lemma seeding_creator ret ty value vld init mph mph' pphs c c' :
  seeding ret ty value vld init mph pphs c →
  exclusion c' →
  type (shared c') = type (shared c) →
  current (shared c') = current (shared c) →
  valid (shared c') = valid (shared c) →
  threads c' = monitor_at ret ty value vld mph' :: (poster_code <$> pphs) →
  monitors (shared c') = init ++ (if registered mph' then [ret] else []) →
  mph' ≠ MIdle →
  seeded ty value vld mph' (MonitorFIFO_after ret (events (trace c'))) →
  seeding ret ty value vld init mph' pphs c'.
Proof.
  intros ((Hty & Hcur & Hvld) & Hth & Hex & [Hfresh Hmon] & Hidle & Hq).
  intros Hex' Hty' Hcur' Hvld' Hth' Hmon' Hne Hq'.
  split_and!; [congruence | congruence | congruence | done | done | done | done | done | done].
Qed.

Lemma seeding_poster ret ty value vld init mph pphs c c' k u ph ph' :
  seeding ret ty value vld init mph pphs c →
  pphs !! k = Some (u, ph) →
  exclusion c' →
  shared c' = shared c →
  threads c' = <[S k:=poster_at u ph']> (threads c) →
  (mph = MIdle → ret ∉ posting_to ph') →
  seeded ty value vld mph (MonitorFIFO_after ret (events (trace c'))) →
  seeding ret ty value vld init mph (<[k:=(u, ph')]> pphs) c'.
Proof.
  intros ((Hty & Hcur & Hvld) & Hth & Hex & [Hfresh Hmon] & Hidle & Hq).
  intros Hk Hex' Hsh Hth' Hph' Hq'. rewrite Hth in Hth'.
  split_and!; rewrite ?Hsh; [done | done | done | | done | done | done | | done].
  - rewrite Hth', list_fmap_insert. reflexivity.
  - intros Hm j x Hj.
    apply list_lookup_insert_Some in Hj as [(<- & <- & _)|[_ Hj]]; [by apply Hph' | eauto].
Qed.

Lemma seeding_step ret ty value vld init mph pphs c i c' :
  seeding ret ty value vld init mph pphs c → step i c = Some c' →
  ∃ mph' pphs',
    length pphs' = length pphs
    ∧ seeding ret ty value vld init mph' pphs' c'
    ∧ mrank mph' + pwork (S (length init)) pphs'
      < mrank mph + pwork (S (length init)) pphs.
Proof.
  intros Hs Hstep. pose proof Hs as ((Hty & Hcur & Hvld) & Hth & Hex & [Hfresh Hmon] & Hidle & Hq).
  pose proof (exclusion_step _ _ _ Hex Hstep) as Hex'.
  destruct i as [|k].
  - unfold step in Hstep. rewrite Hth in Hstep. cbn [lookup list_lookup] in Hstep.
    destruct mph; cbn in Hstep.
    + exists MRegistering, pphs. split; [done |]. split; [|cbn; lia].
      destruct (mutex c) as [[j d]|];
        [destruct (decide (j = 0)); [|done] |];
        injection Hstep as <-;
        (eapply seeding_creator; [exact Hs | exact Hex' | done.. |];
         cbn [trace]; by rewrite MonitorFIFO_after_snoc).
    + injection Hstep as <-. exists MTesting, pphs. split; [done |]. split; [|cbn; lia].
      eapply seeding_creator; [exact Hs | exact Hex' | done.. | | done | done].
      cbn [shared monitors set_monitors registered] in Hmon |- *.
      unfold push_back. by rewrite Hmon, app_nil_r.
    + injection Hstep as <-. exists MReadType, pphs. split; [done |]. split; [|cbn; lia].
      eapply seeding_creator; [exact Hs | exact Hex' | done.. | | done | done | done].
      cbn [threads shared]. by rewrite Hty.
    + injection Hstep as <-. exists MOpening, pphs. split; [done |]. split; [|cbn; lia].
      eapply seeding_creator; [exact Hs | exact Hex' | done.. | | done | done | done].
      cbn [threads shared]. by rewrite Hty.
    + injection Hstep as <-. exists MReadValue, pphs. split; [done |]. split; [|cbn; lia].
      eapply seeding_creator; [exact Hs | exact Hex' | done.. |].
      cbn [trace]. rewrite MonitorFIFO_after_snoc. cbn in Hq |- *. rewrite Hq.
      cbn. by rewrite decide_True.
    + injection Hstep as <-. exists MReadValid, pphs. split; [done |]. split; [|cbn; lia].
      eapply seeding_creator; [exact Hs | exact Hex' | done.. | | done | done | done].
      cbn [threads shared]. by rewrite Hcur.
    + injection Hstep as <-. exists MPosting, pphs. split; [done |]. split; [|cbn; lia].
      eapply seeding_creator; [exact Hs | exact Hex' | done.. | | done | done | done].
      cbn [threads shared]. by rewrite Hvld.
    + injection Hstep as <-. exists MLeaving, pphs. split; [done |]. split; [|cbn; lia].
      eapply seeding_creator; [exact Hs | exact Hex' | done.. |].
      cbn [trace]. rewrite MonitorFIFO_after_snoc. cbn in Hq |- *. rewrite Hq.
      cbn. by rewrite decide_True.
    + exists MNotifying, pphs. split; [done |]. split; [|cbn; lia].
      destruct (mutex c) as [[j [|d]]|]; [done | | done].
      destruct (decide (j = 0)); [|done]. injection Hstep as <-.
      eapply seeding_creator; [exact Hs | exact Hex' | done.. |].
      cbn [trace]. rewrite MonitorFIFO_after_snoc. cbn in Hq |- *. rewrite Hq. cbn.
      split; [done |]. by exists [].
    + injection Hstep as <-. exists MFinished, pphs. split; [done |]. split; [|cbn; lia].
      eapply seeding_creator; [exact Hs | exact Hex' | done.. |].
      cbn [trace]. by rewrite MonitorFIFO_after_snoc.
    + done.
  - unfold step in Hstep. rewrite Hth in Hstep.
    change ((monitor_at ret ty value vld mph :: (poster_code <$> pphs)) !! S k)
      with ((poster_code <$> pphs) !! k) in Hstep.
    rewrite list_lookup_fmap in Hstep.
    destruct (pphs !! k) as [[u ph]|] eqn:Hk; [|done].
    assert (threads c !! S k = Some (poster_at u ph)) as Hthk.
    { rewrite Hth.
      change ((monitor_at ret ty value vld mph :: (poster_code <$> pphs)) !! S k)
        with ((poster_code <$> pphs) !! k).
      by rewrite list_lookup_fmap, Hk. }
    pose proof (λ y, pwork_insert (S (length init)) pphs k (u, ph) y Hk) as Hwork.
    assert (length (monitors (shared c)) ≤ S (length init)) as Hbound.
    { rewrite Hmon, length_app. destruct (registered mph); cbn; lia. }
    exists mph. rewrite <-Hth in Hstep.
    destruct ph as [| |rest all|rest]; cbn in Hstep.
    + exists (<[k:=(u, PReading)]> pphs). split; [by rewrite length_insert |].
      split; [|specialize (Hwork (u, PReading)); cbn in Hwork |- *; lia].
      destruct (mutex c) as [[j d]|];
        [destruct (decide (j = S k)); [|done] |];
        injection Hstep as <-;
        (eapply seeding_poster; [exact Hs | exact Hk | exact Hex' | done | done
                                | intros _; apply not_elem_of_nil |];
         cbn [trace]; by rewrite MonitorFIFO_after_snoc).
    + injection Hstep as <-.
      exists (<[k:=(u, PPosting (monitors (shared c)) (monitors (shared c)))]> pphs).
      split; [by rewrite length_insert |].
      split; [|specialize (Hwork (u, PPosting (monitors (shared c)) (monitors (shared c))));
               cbn in Hwork |- *; lia].
      eapply seeding_poster; [exact Hs | exact Hk | exact Hex' | done | done | | done].
      intros ->. cbn [posting_to]. rewrite Hmon. cbn. by rewrite app_nil_r.
    + destruct rest as [|m rest]; cbn in Hstep.
      * exists (<[k:=(u, PNotifying all)]> pphs). split; [by rewrite length_insert |].
        split; [|specialize (Hwork (u, PNotifying all)); cbn in Hwork |- *; lia].
        destruct (mutex c) as [[j [|d]]|]; [done | | done].
        destruct (decide (j = S k)); [|done]. injection Hstep as <-.
        eapply seeding_poster; [exact Hs | exact Hk | exact Hex' | done | done
                               | intros _; apply not_elem_of_nil |].
        cbn [trace]. by rewrite MonitorFIFO_after_snoc.
      * injection Hstep as <-.
        exists (<[k:=(u, PPosting rest all)]> pphs). split; [by rewrite length_insert |].
        split; [|specialize (Hwork (u, PPosting rest all)); cbn in Hwork |- *; lia].
        pose proof (poster_holds _ _ _ _ _ _ _ _ _ _ _ Hs Hthk eq_refl) as Hdepth.
        assert (mph = MIdle → ret ∉ m :: rest) as Hnot.
        { intros Hm. apply (Hidle Hm k _ Hk). }
        eapply seeding_poster; [exact Hs | exact Hk | exact Hex' | done | done | |].
        -- intros Hm Hin. apply (Hnot Hm). by right.
        -- cbn [trace]. rewrite MonitorFIFO_after_snoc. apply seeded_post; [done | | done].
           intros Hm ->. apply (Hnot Hm). by left.
    + destruct rest as [|m rest]; cbn in Hstep; [done |].
      injection Hstep as <-.
      exists (<[k:=(u, PNotifying rest)]> pphs). split; [by rewrite length_insert |].
      split; [|specialize (Hwork (u, PNotifying rest)); cbn in Hwork |- *; lia].
      eapply seeding_poster; [exact Hs | exact Hk | exact Hex' | done | done
                             | intros _; apply not_elem_of_nil |].
      cbn [trace]. by rewrite MonitorFIFO_after_snoc.
Qed.

Lemma seeding_exec ret ty value vld init sched mph pphs c c' :
  seeding ret ty value vld init mph pphs c → exec sched c = Some c' →
  ∃ mph' pphs', seeding ret ty value vld init mph' pphs' c'.
Proof.
  revert mph pphs c. induction sched as [|i sched IH]; intros mph pphs c Hs Hexec;
    cbn in Hexec.
  - injection Hexec as <-. by exists mph, pphs.
  - destruct (step i c) as [c1|] eqn:Hstep; [|done].
    destruct (seeding_step _ _ _ _ _ _ _ _ _ _ Hs Hstep) as (mph1 & pphs1 & _ & Hs1 & _).
    by apply (IH _ _ _ Hs1 Hexec).
Qed.

Lemma seeding_start requester (pvRequest : shared_pointer PVStructure) ret ty value pv
    (updates : list (PVStructure * BitSet)) :
  type pv = Some ty → current pv = Some value → ret ∉ monitors pv →
  seeding ret ty value (valid pv) (monitors pv) MIdle ((λ u, (u, PIdle)) <$> updates)
    (start pv (createMonitor requester pvRequest ret :: (SharedPV_post <$> updates))).
Proof.
  intros Hty Hcur Hfresh.
  split_and!; cbn [shared threads trace start registered]; [done | done | done | | | done | | | done].
  - f_equal. rewrite <-list_fmap_compose. by apply list_fmap_ext.
  - apply exclusion_start. constructor; [apply createMonitor_disciplined |].
    apply Forall_fmap, Forall_true. intros u. apply SharedPV_post_disciplined.
  - by rewrite app_nil_r.
  - intros _ j x Hj. rewrite list_lookup_fmap in Hj.
    destruct (updates !! j); simplify_eq/=. apply not_elem_of_nil.
Qed.

Lemma seeding_progress ret ty value vld init mph pphs c :
  seeding ret ty value vld init mph pphs c → all_returned c = false →
  ∃ i c', step i c = Some c'.
Proof.
  intros (_ & Hth & Hex & _) Hall. apply disciplined_progress; [done | | done].
  intros p Hin. rewrite Hth in Hin.
  apply elem_of_cons in Hin as [->|Hin]; [by destruct mph |].
  apply list_elem_of_fmap in Hin as ([u ph] & -> & _).
  destruct ph as [| |rest all|rest]; try done; by destruct rest.
Qed.

Lemma seeding_completes ret ty value vld init mph pphs c :
  seeding ret ty value vld init mph pphs c →
  ∃ sched c', exec sched c = Some c' ∧ all_returned c' = true.
Proof.
  remember (mrank mph + pwork (S (length init)) pphs) as n eqn:Hn.
  revert mph pphs c Hn.
  induction (lt_wf n) as [n _ IH]. intros mph pphs c -> Hs.
  destruct (all_returned c) eqn:Hall.
  - by exists [], c.
  - destruct (seeding_progress _ _ _ _ _ _ _ _ Hs Hall) as (i & c1 & Hstep).
    destruct (seeding_step _ _ _ _ _ _ _ _ _ _ Hs Hstep) as (mph1 & pphs1 & _ & Hs1 & Hlt).
    destruct (IH _ Hlt _ _ _ eq_refl Hs1) as (sched & c' & Hexec & Hret).
    exists (i :: sched), c'. cbn. by rewrite Hstep.
Qed.

(** The queue at the points of the creating thread. *)
Lemma seeding_snapshot_first ret ty value vld init mph pphs c :
  seeding ret ty value vld init mph pphs c →
  let q := MonitorFIFO_after ret (events (trace c)) in
  queue q = [] ∨ ∃ behind, queue q = (value, vld) :: behind.
Proof.
  intros (_ & _ & _ & _ & _ & Hq). cbn zeta.
  destruct mph; cbn in Hq; try (rewrite Hq; by left).
  - rewrite Hq. right. by exists [].
  - destruct Hq as [_ Hq]. by right.
  - destruct Hq as [_ Hq]. by right.
Qed.

Lemma seeding_creator_at ret ty value vld init mph pphs c :
  seeding ret ty value vld init mph pphs c →
  threads c !! 0 = Some (monitor_at ret ty value vld mph)
  ∧ depth_of 0 (mutex c) = mdepth mph.
Proof.
  intros (_ & Hth & [_ Hall] & _). rewrite Hth. split; [done |].
  eapply monitor_depth, Hall. by rewrite Hth.
Qed.

(** C6, amended: on an opened record, [createMonitor] appends the queue
    to the end of the monitor list and changes nothing else, opens the
    queue with the record's type descriptor and posts one update, the
    record's current value with its validity mask, all between taking and
    releasing the lock; it notifies the subscriber after the release,
    before it returns.  The queue then holds exactly that update, and
    updates posted later queue up behind it.  On a record without type
    descriptor the queue is appended to the monitor list and nothing else
    happens: it is neither opened nor posted to, and nobody is notified.
    While other threads post updates, however the steps interleave: the
    queue is empty or has the snapshot first; when the creating thread
    releases the lock the queue holds the snapshot and nothing else; the
    creating thread makes no call but the notification, and makes it with
    the lock released and the snapshot queued; when it has returned the
    queue is registered and opened and has the snapshot first; and every
    interleaving can be continued until all threads have returned. *)
Theorem monitor_seeded requester pvRequest ret
    (ty : Structure) (value : PVStructure) pv
    (later updates : list (PVStructure * BitSet)) sched c :
  type pv = Some ty → current pv = Some value → ret ∉ monitors pv →
  exec sched
    (start pv (createMonitor requester pvRequest ret :: (SharedPV_post <$> updates)))
  = Some c →
  let t := (run (createMonitor requester pvRequest ret) pv).2 in
  let post := (run (createMonitor requester pvRequest ret) pv).1.2 in
  let q := MonitorFIFO_after ret (events (trace c)) in
  disciplined 0 (createMonitor requester pvRequest ret)
  ∧ run (createMonitor requester pvRequest ret) pv
    = (Some (object ret), set_monitors (push_back ret) pv,
       [Acquire;
        Ev (MonitorFIFO_open ret (Some ty));
        Ev (MonitorFIFO_post ret value (valid pv));
        Release;
        Ev (MonitorFIFO_notify ret)])
  ∧ monitors post = monitors pv ++ [ret]
  ∧ (type post = type pv ∧ current post = current pv ∧ valid post = valid pv
     ∧ handler post = handler pv ∧ channels post = channels pv
     ∧ puts post = puts pv ∧ rpcs post = rpcs pv ∧ getfields post = getfields pv)
  ∧ MonitorFIFO_after ret (events t)
    = {| opened := Some ty; queue := [(value, valid pv)] |}
  ∧ queue (MonitorFIFO_after ret (events t ++ (posted ret <$> later)))
    = (value, valid pv) :: later
  ∧ (∀ pv0, type pv0 = None →
       run (createMonitor requester pvRequest ret) pv0
       = (Some (object ret), set_monitors (push_back ret) pv0, [Acquire; Release])
       ∧ monitors (run (createMonitor requester pvRequest ret) pv0).1.2
         = monitors pv0 ++ [ret]
       ∧ MonitorFIFO_after ret (events (run (createMonitor requester pvRequest ret) pv0).2)
         = MonitorFIFO_new)
  ∧ (queue q = [] ∨ ∃ behind, queue q = (value, valid pv) :: behind)
  ∧ (∀ k, threads c !! 0 = Some (Unlock k) →
       q = {| opened := Some ty; queue := [(value, valid pv)] |}
       ∧ mutex c = Some (0, 1))
  ∧ (∀ e k, threads c !! 0 = Some (Emit e k) → is_callback e = true →
       e = MonitorFIFO_notify ret ∧ depth_of 0 (mutex c) = 0
       ∧ opened q = Some ty ∧ ∃ behind, queue q = (value, valid pv) :: behind)
  ∧ (∀ r, threads c !! 0 = Some (Ret r) →
       r = object ret ∧ monitors (shared c) = monitors pv ++ [ret]
       ∧ opened q = Some ty ∧ ∃ behind, queue q = (value, valid pv) :: behind)
  ∧ (∃ sched' c', exec sched' c = Some c' ∧ all_returned c' = true).
Proof.
  intros Ht Hcur Hfresh Hexec t post q. subst t post q.
  assert (Hrun : run (createMonitor requester pvRequest ret) pv
    = (Some (object ret), set_monitors (push_back ret) pv,
       [Acquire;
        Ev (MonitorFIFO_open ret (Some ty));
        Ev (MonitorFIFO_post ret value (valid pv));
        Release;
        Ev (MonitorFIFO_notify ret)])).
  { by rewrite run_createMonitor, Ht, Hcur. }
  assert (Hq : MonitorFIFO_after ret (events (run (createMonitor requester pvRequest ret) pv).2)
    = {| opened := Some ty; queue := [(value, valid pv)] |}).
  { rewrite Hrun. unfold SharedState.MonitorFIFO_after. cbn. by rewrite !decide_True. }
  destruct (seeding_exec _ _ _ _ _ _ _ _ _ _
              (seeding_start requester pvRequest ret ty value pv updates Ht Hcur Hfresh)
              Hexec) as (mph & pphs & Hs).
  destruct (seeding_creator_at _ _ _ _ _ _ _ _ Hs) as [Hat Hdepth].
  pose proof Hs as (_ & _ & _ & [_ Hmon] & _ & Hseed).
  split; [apply createMonitor_disciplined |].
  split; [exact Hrun |].
  split; [by rewrite Hrun |].
  split; [by rewrite Hrun |].
  split; [exact Hq |].
  split.
  { unfold SharedState.MonitorFIFO_after in *. rewrite foldl_app, Hq.
    rewrite MonitorFIFO_posts by (cbn; by eexists). done. }
  split; [intros pv0 Ht0; by rewrite run_createMonitor, Ht0 |].
  split; [exact (seeding_snapshot_first _ _ _ _ _ _ _ _ Hs) |].
  split.
  { intros k Hk. rewrite Hat in Hk. injection Hk as Hk.
    destruct mph; try discriminate. split; [exact Hseed |].
    cbn in Hdepth. unfold depth_of in Hdepth.
    destruct (mutex c) as [[j d]|]; [|done].
    destruct (decide (j = 0)) as [->|]; [by subst | done]. }
  split.
  { intros e k He Hcb. rewrite Hat in He. injection He as He.
    destruct mph; try discriminate; cbn in He; injection He as <- <-; try done. }
  split.
  { intros r Hr. rewrite Hat in Hr. injection Hr as Hr.
    destruct mph; try discriminate. cbn in Hr. injection Hr as <-.
    split; [done |]. split; [exact Hmon | exact Hseed]. }
  exact (seeding_completes _ _ _ _ _ _ _ _ Hs).
Qed.

End MonitorSeeding.
(** ** The properties at work on sample data *)

Lemma cleanup_of_completed :
  ∃ before : list (Operation.Event nat),
    Operation.Cleanup (V:=reachable) completed_impl = before ++ [Operation.Delete]
    ∧ before = [Operation.Lock_impl; Operation.Unlock_impl].
Proof.
  destruct (cleanup_implicit_cancel (V:=reachable) completed_impl)
    as (before & Hlog & _ & _ & _ & Hdone).
  exists before. split; [exact Hlog | apply Hdone; reflexivity].
Defined.

Lemma second_completion_silent :
  Operation.deliveries
    (Operation.calls (V:=reachable)
       [Operation.complete2 5 1; Operation.complete0;
        Operation.complete1 (Status_error "late")] pending_impl).2
  = [{| Operation.to := 9;
        Operation.status := Status_default;
        Operation.payload := Some 5 |}].
Proof.
  destruct (first_completion_authoritative
              (λ _, Some {| Operation.getChannelName := "pv:counter" |}) (λ _, Some 9)
              (Operation.complete2 5 1)
              [Operation.complete0; Operation.complete1 (Status_error "late")]
              pending_impl)
    as (_ & _ & _ & Hfirst).
  apply (Hfirst 9); reflexivity.
Defined.

Lemma names_and_messages :
  Operation.Operation_channelName (V:=expired) pending_impl = ""
  ∧ Operation.Operation_channelName (V:=reachable) pending_impl = "pv:counter"
  ∧ Operation.Operation_info (V:=reachable) "busy" pending_impl
    = [Operation.message 9 "busy" infoMessage]
  ∧ Operation.Operation_warn (V:=expired) "busy" pending_impl = [].
Proof.
  destruct (expired_references_tolerated (V:=expired) pending_impl "busy")
    as (Hgone & _ & _ & Hdropped).
  destruct (expired_references_tolerated (V:=reachable) pending_impl "busy")
    as (_ & Hname & Hsent & _).
  split_and!.
  - apply Hgone. reflexivity.
  - apply (Hname {| Operation.getChannelName := "pv:counter" |}). reflexivity.
  - apply (Hsent 9). reflexivity.
  - apply Hdropped. reflexivity.
Defined.

Lemma two_opens_one_call :
  (∃ c,
     SharedState.exec two_opens
       (SharedState.start fresh_record (SharedState.SharedChannel_ctor <$> [10; 11]))
     = Some c
     ∧ SharedState.all_returned c = true
     ∧ SharedState.callbacks (SharedState.trace c) = [SharedState.onFirstConnect 7]
     ∧ SharedState.channels (SharedState.shared c) ≡ₚ [10; 11])
  ∧ SharedState.channels
      (SharedState.run (SharedState.SharedChannel_ctor 1) bare_record).1.2 = [1]
  ∧ SharedState.callbacks
      (SharedState.run (SharedState.SharedChannel_ctor 1) bare_record).2 = []
  ∧ SharedState.channels
      (SharedState.run (SharedState.SharedChannel_ctor 2)
         (SharedState.run (SharedState.SharedChannel_ctor 1) bare_record).1.2).1.2
    = [1; 2].
Proof.
  destruct (SharedState.exec two_opens
              (SharedState.start fresh_record
                 (SharedState.SharedChannel_ctor <$> [10; 11]))) as [c|] eqn:Hexec;
    [|vm_compute in Hexec; discriminate].
  assert (SharedState.all_returned c = true) as Hret.
  { vm_compute in Hexec. injection Hexec as <-. reflexivity. }
  destruct (first_connect_once 1 7 bare_record [10; 11] fresh_record two_opens c
              eq_refl eq_refl ltac:(discriminate) Hexec)
    as (_ & _ & Hfirst & _ & _ & Hquiet & _ & _ & Hall & _).
  destruct (first_connect_once 2 7
              (SharedState.run (SharedState.SharedChannel_ctor 1) bare_record).1.2
              [10; 11] fresh_record two_opens c
              eq_refl eq_refl ltac:(discriminate) Hexec)
    as (_ & _ & Hsecond & _).
  split_and!.
  - exists c. destruct (Hall Hret) as [Hcalled Hlist].
    split_and!; [reflexivity | exact Hret | exact Hcalled | exact Hlist].
  - exact Hfirst.
  - apply Hquiet. reflexivity.
  - exact Hsecond.
Defined.




Lemma monitor_snapshot_first :
  (∃ c behind,
     SharedState.exec late_update_done
       (SharedState.start opened_record_10
          [SharedState.createMonitor 9 (Some 0) 30; SharedState.SharedPV_post (43, 1)])
     = Some c
     ∧ SharedState.all_returned c = true
     ∧ SharedState.monitors (SharedState.shared c) = [30]
     ∧ SharedState.queue
         (SharedState.MonitorFIFO_after 30 (SharedState.events (SharedState.trace c)))
       = (42, 3) :: behind)
  ∧ SharedState.run (SharedState.createMonitor 9 (Some 0) 30) opened_record_10
    = (Some (SharedState.object 30),
       SharedState.set_monitors (SharedState.push_back 30) opened_record_10,
       [SharedState.Acquire;
        SharedState.Ev (SharedState.MonitorFIFO_open 30 (Some 1));
        SharedState.Ev (SharedState.MonitorFIFO_post 30 42 3);
        SharedState.Release;
        SharedState.Ev (SharedState.MonitorFIFO_notify 30)])
  ∧ SharedState.monitors
      (SharedState.run (SharedState.createMonitor 9 (Some 0) 30) opened_record_10).1.2
    = [30]
  ∧ SharedState.queue
      (SharedState.MonitorFIFO_after 30
         (SharedState.events
            (SharedState.run (SharedState.createMonitor 9 (Some 0) 30) opened_record_10).2
          ++ (SharedState.posted 30 <$> [(43, 1); (44, 2)])))
    = [(42, 3); (43, 1); (44, 2)].
Proof.
  destruct (SharedState.exec late_update_done
              (SharedState.start opened_record_10
                 [SharedState.createMonitor 9 (Some 0) 30;
                  SharedState.SharedPV_post (43, 1)])) as [c|] eqn:Hexec;
    [|vm_compute in Hexec; discriminate].
  assert (SharedState.all_returned c = true
          ∧ SharedState.threads c !! 0 = Some (SharedState.Ret (SharedState.object 30)))
    as [Hret Hat].
  { vm_compute in Hexec. injection Hexec as <-. split; reflexivity. }
  destruct (monitor_seeded 9 (Some 0) 30 1 42 opened_record_10
              [(43, 1); (44, 2)] [(43, 1)] late_update_done c
              eq_refl eq_refl ltac:(apply not_elem_of_nil) Hexec)
    as (_ & Hrun & Hlist & _ & _ & Hqueue & _ & _ & _ & _ & Hdone & _).
  destruct (Hdone _ Hat) as (_ & Hreg & _ & behind & Hfirst).
  split_and!; [| exact Hrun | exact Hlist | exact Hqueue].
  exists c, behind. split_and!; [reflexivity | exact Hret | exact Hreg | exact Hfirst].
Defined.

(** An update posted by another thread after the snapshot is in the queue
    of the new monitor while the creating thread has not yet notified the
    subscriber. *)
Lemma notified_after_later_update :
  ∃ c,
    SharedState.exec late_update
      (SharedState.start opened_record_10
         [SharedState.createMonitor 9 (Some 0) 30; SharedState.SharedPV_post (43, 1)])
    = Some c
    ∧ SharedState.threads c !! 0
      = Some (SharedState.Emit (SharedState.MonitorFIFO_notify 30)
                (SharedState.Ret (SharedState.object 30)))
    ∧ SharedState.events (SharedState.trace c)
      = [SharedState.MonitorFIFO_open 30 (Some 1);
         SharedState.MonitorFIFO_post 30 42 3;
         SharedState.MonitorFIFO_post 30 43 1]
    ∧ SharedState.queue
        (SharedState.MonitorFIFO_after 30 (SharedState.events (SharedState.trace c)))
      = [(42, 3); (43, 1)].
Proof.
  destruct (SharedState.exec late_update
              (SharedState.start opened_record_10
                 [SharedState.createMonitor 9 (Some 0) 30;
                  SharedState.SharedPV_post (43, 1)])) as [c|] eqn:Hexec;
    [|vm_compute in Hexec; discriminate].
  exists c. split; [reflexivity |].
  vm_compute in Hexec. injection Hexec as <-. split_and!; reflexivity.
Qed.

(** Two channels opened on a record without handler, a handler attached, a
    third channel opened, and the three closed: the first connect is never
    reported, the last disconnect once, by the close that empties the
    list. *)
Example open_three_close_three :
  let '(pv2, t2) :=
    SharedState.run_all
      [SharedState.SharedChannel_ctor 1; SharedState.SharedChannel_ctor 2]
      bare_record in
  let '(pv6, t6) :=
    SharedState.run_all
      [SharedState.SharedChannel_ctor 3; SharedState.SharedChannel_dtor 2;
       SharedState.SharedChannel_dtor 1; SharedState.SharedChannel_dtor 3]
      (with_handler 7 pv2) in
  SharedState.channels pv2 = [1; 2]
  ∧ SharedState.callbacks t2 = []
  ∧ SharedState.channels pv6 = []
  ∧ SharedState.callbacks t6 = [SharedState.onLastDisconnect 7]
  ∧ last t6 = Some (SharedState.Ev (SharedState.onLastDisconnect 7)).
Proof. vm_compute. split_and!; reflexivity. Qed.
(** ** Further properties at work on sample data *)

Lemma replaced_factory_serves :
  Registry.getProvider
    (Registry.registerChannelProviderFactory pva_factory_2
       (Registry.registerChannelProviderFactory pva_factory ∅)) "pva"
  = Some 11
  ∧ Registry.createProvider
      (Registry.registerChannelProviderFactory pva_factory_2
         (Registry.registerChannelProviderFactory pva_factory ∅)) "pva"
    = Some 12
  ∧ Registry.getProvider
      (Registry.registerChannelProviderFactory pva_factory_2
         (Registry.registerChannelProviderFactory pva_factory ∅)) "pvAccess"
    = Some 11
  ∧ Registry.unregisterChannelProviderFactory pva_factory
      (Registry.registerChannelProviderFactory pva_factory_2 ∅) !! "pva"
    = None.
Proof.
  destruct (registration_by_name pva_factory pva_factory_2 ∅ eq_refl)
    as (_ & _ & Hgone & _ & _ & Hserved & Hlegacy).
  destruct (Hserved ltac:(discriminate)) as [Hget Hnew].
  destruct (Hlegacy eq_refl) as [Hold _].
  split_and!; [exact Hget | exact Hnew | exact Hold | exact Hgone].
Defined.

Lemma legacy_factory_unreachable :
  Registry.getProvider
    (Registry.registerChannelProviderFactory legacy_factory
       (Registry.registerChannelProviderFactory pva_factory ∅)) "pvAccess"
  = Some 1
  ∧ "pvAccess" ∈ RegistryNames.getProviderNames
                    (Registry.registerChannelProviderFactory legacy_factory
                       (Registry.registerChannelProviderFactory pva_factory ∅)).
Proof.
  destruct (lookups_ignore_legacy_key legacy_factory
              (Registry.registerChannelProviderFactory pva_factory ∅) "pvAccess"
              eq_refl)
    as (Hget & _ & _ & _ & Hlisted).
  split; [|exact Hlisted].
  rewrite Hget. reflexivity.
Defined.


Lemma busy_pool_can_move :
  ∃ c i c',
    SharedState.exec busy_schedule
      (SharedState.start fresh_record (SharedState.invoke <$> busy_pool))
    = Some c
    ∧ SharedState.all_returned c = false
    ∧ SharedState.step i c = Some c'.
Proof.
  destruct (SharedState.exec busy_schedule
              (SharedState.start fresh_record (SharedState.invoke <$> busy_pool)))
    as [c|] eqn:Hexec; [|vm_compute in Hexec; discriminate].
  assert (SharedState.all_returned c = false
          ∧ ∀ p, p ∈ SharedState.threads c → SharedState.faulted p = false)
    as [Hbusy Hsound].
  { vm_compute in Hexec. injection Hexec as <-. split; [reflexivity |].
    intros p Hin. cbn [SharedState.threads] in Hin.
    repeat (apply elem_of_cons in Hin as [-> | Hin]; [reflexivity |]).
    by apply elem_of_nil in Hin. }
  destruct (no_deadlock fresh_record busy_pool busy_schedule c Hexec Hsound Hbusy)
    as (i & c' & Hstep).
  exists c, i, c'. split_and!; [reflexivity | exact Hbusy | exact Hstep].
Defined.

Lemma two_closes_one_call :
  ∃ c,
    SharedState.exec two_closes
      (SharedState.start opened_record_10_11
         (SharedState.SharedChannel_dtor <$> [10; 11]))
    = Some c
    ∧ SharedState.all_returned c = true
    ∧ SharedState.callbacks (SharedState.trace c) = [SharedState.onLastDisconnect 7]
    ∧ SharedState.channels (SharedState.shared c) = [].
Proof.
  destruct (SharedState.exec two_closes
              (SharedState.start opened_record_10_11
                 (SharedState.SharedChannel_dtor <$> [10; 11]))) as [c|] eqn:Hexec;
    [|vm_compute in Hexec; discriminate].
  exists c. split; [reflexivity |].
  assert (SharedState.all_returned c = true) as Hret.
  { vm_compute in Hexec. injection Hexec as <-. reflexivity. }
  split; [exact Hret |].
  assert (NoDup [10; 11]) as Hnd.
  { apply NoDup_cons. split; [|apply NoDup_singleton].
    intros Hin. apply list_elem_of_singleton in Hin. discriminate. }
  destruct (last_disconnect_once 7 opened_record_10_11 [10; 11] two_closes c
              eq_refl Hnd ltac:(discriminate) ltac:(reflexivity) Hexec)
    as (_ & Hall & _).
  exact (Hall Hret).
Defined.

Lemma three_opened_three_closed :
  SharedState.channels
    (SharedState.run_all
       ((SharedState.SharedChannel_ctor <$> [10; 11; 12])
        ++ (SharedState.SharedChannel_dtor <$> [11; 12; 10])) fresh_record).1
  = []
  ∧ SharedState.callbacks
      (SharedState.run_all
         ((SharedState.SharedChannel_ctor <$> [10; 11; 12])
          ++ (SharedState.SharedChannel_dtor <$> [11; 12; 10])) fresh_record).2
    = [SharedState.onFirstConnect 7; SharedState.onLastDisconnect 7].
Proof.
  assert (NoDup [10; 11; 12]) as Hnd.
  { repeat (apply NoDup_cons; split;
              [intros Hin;
               repeat (apply elem_of_cons in Hin as [Hin | Hin]; [discriminate |]);
               by apply elem_of_nil in Hin |]).
    apply NoDup_nil_2. }
  assert ([11; 12; 10] ≡ₚ [10; 11; 12]) as Hperm.
  { symmetry. apply (Permutation_cons_append [11; 12] 10). }
  destruct (open_all_close_all 7 [10; 11; 12] [11; 12; 10] fresh_record
              eq_refl eq_refl ltac:(discriminate) Hnd Hperm)
    as (_ & Hempty & Hcalls).
  split; [exact Hempty | exact Hcalls].
Defined.

Lemma second_channel_round_trip :
  (SharedState.run_all
     [SharedState.SharedChannel_ctor 11; SharedState.SharedChannel_dtor 11]
     opened_record_10).1
  = opened_record_10
  ∧ SharedState.callbacks
      (SharedState.run_all
         [SharedState.SharedChannel_ctor 11; SharedState.SharedChannel_dtor 11]
         opened_record_10).2
    = []
  ∧ (SharedState.run_all
       [SharedState.createMonitor 9 (Some 0) 30; SharedState.SharedMonitorFIFO_dtor 30]
       opened_record_10).1
    = opened_record_10.
Proof.
  assert (11 ∉ SharedState.channels opened_record_10) as Hthis.
  { intros Hin. apply list_elem_of_singleton in Hin. discriminate. }
  destruct (attach_detach_round_trip 11 9 (Some 0) 30 opened_record_10
              Hthis ltac:(apply not_elem_of_nil) ltac:(intros _; by eexists))
    as (Hchannel & Hcalls & Hmonitor & _).
  split_and!; [exact Hchannel | exact Hcalls | exact Hmonitor].
Defined.


Lemma cleanup_after_calls :
  Operation.Cleanup (V:=reachable)
    (Operation.calls (V:=reachable) [Operation.complete0] pending_impl).1
  = [Operation.Lock_impl; Operation.Unlock_impl; Operation.Delete]
  ∧ Operation.completions
      (Operation.Cleanup (V:=forgetful)
         (Operation.calls (V:=forgetful)
            [Operation.complete0; Operation.complete1 (Status_error "late")]
            pending_impl).1)
    = [(Status_error "Implicit Cancel", None)].
Proof.
  destruct (cleanup_follows_done_flag (V:=reachable) [Operation.complete0] pending_impl)
    as [Hsets _].
  destruct (cleanup_follows_done_flag (V:=forgetful)
              [Operation.complete0; Operation.complete1 (Status_error "late")]
              pending_impl)
    as [_ Hkeeps].
  split.
  - apply Hsets; [|discriminate].
    intros sts val impl'. cbn. unfold Operation.complete_once.
    destruct (Operation.done impl') eqn:Hdone; [exact Hdone | reflexivity].
  - apply Hkeeps; [|reflexivity]. intros sts val impl'. reflexivity.
Defined.

Lemma calls_on_open_record :
  SharedState.all_return (SharedState.invoke <$> calls_on_open) opened_record_10 = true
  ∧ SharedState.puts
      (SharedState.run_all (SharedState.invoke <$> calls_on_open) opened_record_10).1
    = [20]
  ∧ SharedState.getfields
      (SharedState.run_all (SharedState.invoke <$> calls_on_open) opened_record_10).1
    = []
  ∧ SharedState.current
      (SharedState.run_all (SharedState.invoke <$> calls_on_open) opened_record_10).1
    = Some 42.
Proof.
  destruct (methods_frame calls_on_open opened_record_10)
    as (_ & Hvalue & _ & _ & Hlists).
  destruct Hlists as (Hret & Hputs & _ & Hasked); [intros _; by eexists |].
  split_and!; [exact Hret | exact Hputs | exact Hasked | exact Hvalue].
Defined.
